(** * txscript: script parsing, classification and signature-operation counting

    A shallow embedding of [txscript/script.go] and proofs of the properties
    its specification states.

    Conventions of the embedding.
    - A Go [byte] is a [Byte.byte]; a Go [int] is a [Z] (64-bit: wrap-around
      is written out where a value is not bounded by the length of a slice
      that is held in memory); a slice is a [list].
    - A Go function that can panic at run time (index or slice expression out
      of range) or that can loop forever returns an [option]: [None] stands
      for "no value is returned".  A Go [(T, error)] result is a pair whose
      second component is an [option Error] ([None] is the nil error). *)

From Stdlib Require Import ZArith List Bool Lia.
From Stdlib.Strings Require Import Byte.
Import ListNotations.
Local Open Scope Z_scope.

(** ** Go primitives *)

(** Bind of the partiality monad: a panic or a divergence propagates. *)
Notation "x <- e ;; k" :=
  (match e with Some x => k | None => None end)
  (at level 61, e at next level, right associativity).

(** The short-circuit operators [a && b] and [a || b]: the right operand is
    evaluated, and can panic, only when the left one does not decide. *)
Definition andthen (a b : option bool) : option bool :=
  x <- a ;; if x then b else Some false.

Definition orelse (a b : option bool) : option bool :=
  x <- a ;; if x then Some true else b.

Infix "&&&" := andthen (at level 40, left associativity).
Infix "|||" := orelse (at level 50, left associativity).

(** [int(b)] and [uint(b)] for a byte [b]. *)
Definition byte_to_Z (b : byte) : Z := Z.of_N (Byte.to_N b).
Coercion byte_to_Z : byte >-> Z.

(** [byte(z)]: conversion of an integer to a byte keeps the low 8 bits. *)
Definition byte_of_Z (z : Z) : byte :=
  match Byte.of_N (Z.to_N (z mod 256)) with
  | Some b => b
  | None => x00
  end.

(** [len(s)]. *)
Definition len {A : Type} (s : list A) : Z := Z.of_nat (List.length s).

(** [s[i]]: panics out of range. *)
Definition index {A : Type} (s : list A) (i : Z) : option A :=
  if (0 <=? i) && (i <? len s) then nth_error s (Z.to_nat i) else None.

(** [s[lo:hi]]: panics unless [0 <= lo <= hi <= cap(s)]; the capacity of a
    slice is taken to be its length, which is the strictest case. *)
Definition slice {A : Type} (s : list A) (lo hi : Z) : option (list A) :=
  if (0 <=? lo) && (lo <=? hi) && (hi <=? len s)
  then Some (firstn (Z.to_nat (hi - lo)) (skipn (Z.to_nat lo) s))
  else None.

(** [s[lo:]]. *)
Definition slice_from {A : Type} (s : list A) (lo : Z) : option (list A) :=
  slice s lo (len s).

(** [int(l)] for a [uint] [l]: reinterpretation in 64-bit two's complement. *)
Definition int_of_uint (l : Z) : Z :=
  let m := l mod 2 ^ 64 in
  if m <? 2 ^ 63 then m else m - 2 ^ 64.

(** Addition on [int] with its 64-bit wrap-around. *)
Definition int_add (a b : Z) : Z := int_of_uint (a + b).

(** [bytes.Contains(b, subslice)] of the Go standard library: [subslice]
    occurs in [b] as a contiguous run (the empty slice occurs everywhere). *)
Fixpoint bytes_HasPrefix (s prefix : list byte) : bool :=
  match prefix, s with
  | [], _ => true
  | _ :: _, [] => false
  | p :: prefix', c :: s' => Byte.eqb c p && bytes_HasPrefix s' prefix'
  end.

Fixpoint bytes_Contains (b subslice : list byte) : bool :=
  bytes_HasPrefix b subslice ||
  match b with
  | [] => false
  | _ :: b' => bytes_Contains b' subslice
  end.

(** ** Data model *)

(** Error kinds of the package that the functions below can produce. *)
Inductive ErrorCode : Type :=
| ErrInternal
| ErrMalformedPush.

(** [scriptError(c, desc)].  The description is a diagnostic string built
    with [fmt.Sprintf]; the model keeps the error kind. *)
Inductive Error : Type :=
| scriptError (c : ErrorCode).

Definition errorCode (e : Error) : ErrorCode :=
  match e with scriptError c => c end.

(** An entry of the opcode table: the byte value and the length encoding
    ([1]: no operand; [> 1]: total size of a fixed-size push; [< 0]: width of
    the little-endian length prefix of the push).  The display name and the
    execution handler of an entry play no part in the functions below. *)
Record opcode : Type := mkOpcode {
  value : byte;
  length : Z
}.

(** A decoded instruction: its opcode and the pushed data. *)
Record parsedOpcode : Type := mkParsedOpcode {
  pop_opcode : opcode;
  pop_data : list byte
}.

(** Modelled from the spec: the opcode constants of [opcode.go], which is not
    part of the sources at hand.  Their values are those of the consensus
    opcode set: [OP_DATA_n] is the fixed push of [n] bytes, the three
    prefixed pushes follow [OP_DATA_75], [OP_1] to [OP_16] are contiguous and
    so is the stake-tag range [OP_SSTX] to [OP_SSTXCHANGE]. *)
Definition OP_0 : byte := x00.
Definition OP_DATA_1 : byte := x01.
Definition OP_DATA_20 : byte := x14.
Definition OP_DATA_75 : byte := x4b.
Definition OP_PUSHDATA1 : byte := x4c.
Definition OP_PUSHDATA2 : byte := x4d.
Definition OP_PUSHDATA4 : byte := x4e.
Definition OP_1NEGATE : byte := x4f.
Definition OP_RESERVED : byte := x50.
Definition OP_1 : byte := x51.
Definition OP_3 : byte := x53.
Definition OP_16 : byte := x60.
Definition OP_RETURN : byte := x6a.
Definition OP_DUP : byte := x76.
Definition OP_EQUAL : byte := x87.
Definition OP_EQUALVERIFY : byte := x88.
Definition OP_HASH160 : byte := xa9.
Definition OP_CHECKSIG : byte := xac.
Definition OP_CHECKSIGVERIFY : byte := xad.
Definition OP_CHECKMULTISIG : byte := xae.
Definition OP_CHECKMULTISIGVERIFY : byte := xaf.
Definition OP_SSTX : byte := xba.
Definition OP_SSGEN : byte := xbb.
Definition OP_SSRTX : byte := xbc.
Definition OP_SSTXCHANGE : byte := xbd.
Definition OP_CHECKSIGALT : byte := xbe.
Definition OP_CHECKSIGALTVERIFY : byte := xbf.

(** Modelled from the spec: the table [opcodeArray] of [opcode.go], one entry
    per byte value.  The entry of byte [b] has value [b]; its length is [1]
    for an opcode without operand, [n + 1] for [OP_DATA_n], and [-1], [-2],
    [-4] for the three prefixed pushes. *)
Definition opcodeArray (b : byte) : opcode :=
  let v := byte_to_Z b in
  mkOpcode b
    (if (byte_to_Z OP_DATA_1 <=? v) && (v <=? byte_to_Z OP_DATA_75) then v + 1
     else if v =? byte_to_Z OP_PUSHDATA1 then -1
     else if v =? byte_to_Z OP_PUSHDATA2 then -2
     else if v =? byte_to_Z OP_PUSHDATA4 then -4
     else 1).

(** These are the constants specified for maximums in individual scripts. *)
Definition MaxOpsPerScript : Z := 255.
Definition MaxPubKeysPerMultiSig : Z := 20.
Definition MaxScriptElementSize : Z := 2048.

(** ** The parser *)

(** Outcome of one turn of the loop of [parseScriptTemplate]: the decoded
    instruction together with the new value of the cursor [i], or the early
    return with an error. *)
Inductive turn : Type :=
| Next (pop : parsedOpcode) (i' : Z)
| Fail (e : Error).

(** The little-endian length of a prefixed push ([switch op.length]); the
    [default] case is the early return. *)
Definition pushLength (script : list byte) (op : opcode) (off : Z)
  : option (Z + Error) :=
  if length op =? -1 then
    b0 <- index script off ;;
    Some (inl (byte_to_Z b0))
  else if length op =? -2 then
    b1 <- index script (off + 1) ;;
    b0 <- index script off ;;
    Some (inl (Z.lor (Z.shiftl (byte_to_Z b1) 8) (byte_to_Z b0)))
  else if length op =? -4 then
    b3 <- index script (off + 3) ;;
    b2 <- index script (off + 2) ;;
    b1 <- index script (off + 1) ;;
    b0 <- index script off ;;
    Some (inl (Z.lor (Z.lor (Z.lor (Z.shiftl (byte_to_Z b3) 24)
                                   (Z.shiftl (byte_to_Z b2) 16))
                            (Z.shiftl (byte_to_Z b1) 8))
                     (byte_to_Z b0)))
  else Some (inr (scriptError ErrMalformedPush)).

(** The body of the loop of [parseScriptTemplate] at cursor [i]. *)
Definition parseInstr (script : list byte) (opcodes : byte -> opcode) (i : Z)
  : option turn :=
  instr <- index script i ;;
  let op := opcodes instr in
  if length op =? 1 then
    (* No additional data. *)
    Some (Next (mkParsedOpcode op []) (i + 1))
  else if length op >? 1 then
    (* Data pushes of specific lengths -- OP_DATA_[1-75]. *)
    rest <- slice_from script i ;;
    if len rest <? length op then Some (Fail (scriptError ErrMalformedPush))
    else
      d <- slice script (i + 1) (i + length op) ;;
      Some (Next (mkParsedOpcode op d) (i + length op))
  else if length op <? 0 then
    (* Data pushes with parsed lengths -- OP_PUSHDATA{1,2,4}. *)
    let off := i + 1 in
    rest <- slice_from script off ;;
    if len rest <? - length op then Some (Fail (scriptError ErrMalformedPush))
    else
      r <- pushLength script op off ;;
      match r with
      | inr e => Some (Fail e)
      | inl l =>
          (* Move offset to beginning of the data. *)
          let off := off + - length op in
          rest <- slice_from script off ;;
          if (int_of_uint l >? len rest) || (int_of_uint l <? 0)
          then Some (Fail (scriptError ErrMalformedPush))
          else
            d <- slice script off (off + int_of_uint l) ;;
            Some (Next (mkParsedOpcode op d) (i + (1 - length op + int_of_uint l)))
      end
  else
    (* length 0: no case of the switch applies and the cursor stays. *)
    Some (Next (mkParsedOpcode op []) i).

(** The loop [for i := 0; i < len(script); { ... }], bounded by [fuel]
    turns. *)
Fixpoint parseLoop (fuel : nat) (script : list byte) (opcodes : byte -> opcode)
  (i : Z) (retScript : list parsedOpcode)
  : option (list parsedOpcode * option Error) :=
  if i <? len script then
    match fuel with
    | O => None
    | S fuel' =>
        t <- parseInstr script opcodes i ;;
        match t with
        | Fail e => Some (retScript, Some e)
        | Next pop i' => parseLoop fuel' script opcodes i' (retScript ++ [pop])
        end
    end
  else Some (retScript, None).

(** [parseScriptTemplate]: when there are parse errors, the list of parsed
    opcodes up to the point of failure is returned along with the error.  A
    turn that does not fail moves the cursor forward unless the table has an
    entry of length 0, so that [len(script)] turns are enough whenever the
    loop terminates. *)
Definition parseScriptTemplate (script : list byte) (opcodes : byte -> opcode)
  : option (list parsedOpcode * option Error) :=
  parseLoop (List.length script) script opcodes 0 [].

(** [parseScript] preparses the script in bytes into a list of parsedOpcodes. *)
Definition parseScript (script : list byte)
  : option (list parsedOpcode * option Error) :=
  parseScriptTemplate script opcodeArray.

(** Modelled from the spec: the method [bytes] of [parsedOpcode], declared in
    [opcode.go] which is not part of the sources at hand: the byte form of one
    instruction is the opcode byte, then for a prefixed push the little-endian
    length of the data on 1, 2 or 4 bytes, then the data; it fails with an
    internal error when the size of the result is not the one the length
    encoding of the opcode calls for. *)
Definition parsedOpcode_bytes (pop : parsedOpcode) : list byte * option Error :=
  let op := pop_opcode pop in
  let retbytes := [value op] in
  if length op =? 1 then
    if negb (len (pop_data pop) =? 0) then ([], Some (scriptError ErrInternal))
    else (retbytes, None)
  else
    let l := len (pop_data pop) in
    let '(retbytes, nbytes) :=
      if length op =? -1 then
        (retbytes ++ [byte_of_Z l], byte_to_Z (byte_of_Z l) + 2)
      else if length op =? -2 then
        let b0 := byte_of_Z (Z.land l 255) in
        let b1 := byte_of_Z (Z.land (Z.shiftr l 8) 255) in
        (retbytes ++ [b0; b1],
         Z.lor (byte_to_Z b0) (Z.shiftl (byte_to_Z b1) 8) + 3)
      else if length op =? -4 then
        let b0 := byte_of_Z (Z.land l 255) in
        let b1 := byte_of_Z (Z.land (Z.shiftr l 8) 255) in
        let b2 := byte_of_Z (Z.land (Z.shiftr l 16) 255) in
        let b3 := byte_of_Z (Z.land (Z.shiftr l 24) 255) in
        (retbytes ++ [b0; b1; b2; b3],
         Z.lor (Z.lor (Z.lor (byte_to_Z b0) (Z.shiftl (byte_to_Z b1) 8))
                      (Z.shiftl (byte_to_Z b2) 16))
               (Z.shiftl (byte_to_Z b3) 24) + 5)
      else (retbytes, length op) in
    let retbytes := retbytes ++ pop_data pop in
    if negb (len retbytes =? nbytes) then ([], Some (scriptError ErrInternal))
    else (retbytes, None).

(** The loop of [unparseScript] over the remaining instructions, [script]
    being the bytes appended so far. *)
Fixpoint unparseLoop (pops : list parsedOpcode) (script : list byte)
  : list byte * option Error :=
  match pops with
  | [] => (script, None)
  | pop :: pops' =>
      match parsedOpcode_bytes pop with
      | (_, Some err) => ([], Some err)
      | (b, None) => unparseLoop pops' (script ++ b)
      end
  end.

(** [unparseScript] reverses the action of [parseScript] and returns the
    parsedOpcodes as a list of bytes. *)
Definition unparseScript (pops : list parsedOpcode) : list byte * option Error :=
  unparseLoop pops [].

(** ** Classification *)

(** [isSmallInt] returns whether or not the opcode is considered a small
    integer, which is an OP_0, or OP_1 through OP_16. *)
Definition isSmallInt (op : byte) : bool :=
  (op =? OP_0) || ((op >=? OP_1) && (op <=? OP_16)).

(** [isPushOnly] returns true if the script only pushes data. *)
Fixpoint isPushOnly (pops : list parsedOpcode) : bool :=
  match pops with
  | [] => true
  | pop :: pops' =>
      (* All opcodes up to OP_16 are data push instructions. *)
      if value (pop_opcode pop) >? OP_16 then false else isPushOnly pops'
  end.

(** [isStakeOpcode] returns whether or not the opcode is one of the stake
    tagging opcodes. *)
Definition isStakeOpcode (op : byte) : bool :=
  (op >=? OP_SSTX) && (op <=? OP_SSTXCHANGE).

(** [pops[i].opcode.value == v]. *)
Definition opcodeAt (pops : list parsedOpcode) (i : Z) (v : byte) : option bool :=
  pop <- index pops i ;; Some (value (pop_opcode pop) =? v).

(** [isScriptHash] returns whether or not the passed script is a regular
    pay-to-script-hash script. *)
Definition isScriptHash (pops : list parsedOpcode) : option bool :=
  Some (len pops =? 3) &&&
  opcodeAt pops 0 OP_HASH160 &&&
  opcodeAt pops 1 OP_DATA_20 &&&
  opcodeAt pops 2 OP_EQUAL.

(** [isStakeScriptHash] returns whether or not the passed script is a stake
    pay-to-script-hash script. *)
Definition isStakeScriptHash (pops : list parsedOpcode) : option bool :=
  Some (len pops =? 4) &&&
  (pop <- index pops 0 ;; Some (isStakeOpcode (value (pop_opcode pop)))) &&&
  opcodeAt pops 1 OP_HASH160 &&&
  opcodeAt pops 2 OP_DATA_20 &&&
  opcodeAt pops 3 OP_EQUAL.

(** [isAnyKindOfScriptHash] returns whether or not the passed script is
    either a regular or a stake pay-to-script-hash script. *)
Definition isAnyKindOfScriptHash (pops : list parsedOpcode) : option bool :=
  isScriptHash pops ||| isStakeScriptHash pops.

(** [IsPayToScriptHash] returns true if the script is in the standard
    pay-to-script-hash (P2SH) format, false otherwise. *)
Definition IsPayToScriptHash (script : list byte) : option bool :=
  r <- parseScript script ;;
  let '(pops, err) := r in
  match err with
  | Some _ => Some false
  | None => isScriptHash pops
  end.

(** [IsPushOnlyScript] returns whether or not the passed script only pushes
    data.  False will be returned when the script does not parse. *)
Definition IsPushOnlyScript (script : list byte) : option bool :=
  r <- parseScript script ;;
  let '(pops, err) := r in
  match err with
  | Some _ => Some false
  | None => Some (isPushOnly pops)
  end.

(** [IsUnspendable] returns whether the passed public key script is
    unspendable, or guaranteed to fail at execution. *)
Definition IsUnspendable (amount : Z) (pkScript : list byte) : option bool :=
  if amount =? 0 then Some true
  else
    r <- parseScript pkScript ;;
    let '(pops, err) := r in
    match err with
    | Some _ => Some true
    | None => Some (len pops >? 0) &&& opcodeAt pops 0 OP_RETURN
    end.

(** ** Canonical pushes *)

(** [canonicalPush] returns true if the object is either not a push
    instruction or the push instruction contained wherein is matches the
    canonical form or using the smallest instruction to do the job. *)
Definition canonicalPush (pop : parsedOpcode) : option bool :=
  let opcode := value (pop_opcode pop) in
  let data := pop_data pop in
  let dataLen := len (pop_data pop) in
  if opcode >? OP_16 then Some true
  else
    c <- Some (opcode <? OP_PUSHDATA1) &&& Some (opcode >? OP_0) &&&
         (Some (dataLen =? 1) &&& (d0 <- index data 0 ;; Some (d0 <=? 16))) ;;
    if c then Some false
    else if (opcode =? OP_PUSHDATA1) && (dataLen <? OP_PUSHDATA1) then Some false
    else if (opcode =? OP_PUSHDATA2) && (dataLen <=? 255) then Some false
    else if (opcode =? OP_PUSHDATA4) && (dataLen <=? 65535) then Some false
    else Some true.

(** The loop of [removeOpcodeByData], [retScript] being the instructions kept
    so far. *)
Fixpoint removeLoop (pkscript : list parsedOpcode) (data : list byte)
  (retScript : list parsedOpcode) : option (list parsedOpcode) :=
  match pkscript with
  | [] => Some retScript
  | pop :: pkscript' =>
      keep <- (c <- canonicalPush pop ;; Some (negb c)) |||
              Some (negb (bytes_Contains (pop_data pop) data)) ;;
      if keep then removeLoop pkscript' data (retScript ++ [pop])
      else removeLoop pkscript' data retScript
  end.

(** [removeOpcodeByData] will return the script minus any opcodes that would
    push the passed data to the stack. *)
Definition removeOpcodeByData (pkscript : list parsedOpcode) (data : list byte)
  : option (list parsedOpcode) :=
  removeLoop pkscript data [].

(** ** Signature operations *)

(** [asSmallInt] returns the passed opcode, which must be true according to
    [isSmallInt], as an integer.  The subtraction is on bytes. *)
Definition asSmallInt (op : byte) : Z :=
  if op =? OP_0 then 0
  else byte_to_Z (byte_of_Z (op - (OP_1 - 1))).

(** The loop of [getSigOpCount]: [rest] is what remains of [pops] from index
    [i] on and [nSigs] is the running count. *)
Fixpoint sigOpLoop (rest pops : list parsedOpcode) (i : Z) (precise : bool)
  (nSigs : Z) : option Z :=
  match rest with
  | [] => Some nSigs
  | pop :: rest' =>
      let v := value (pop_opcode pop) in
      nSigs' <-
        (if (v =? OP_CHECKSIG) || (v =? OP_CHECKSIGVERIFY) ||
            (v =? OP_CHECKSIGALT) || (v =? OP_CHECKSIGALTVERIFY)
         then Some (int_add nSigs 1)
         else if (v =? OP_CHECKMULTISIG) || (v =? OP_CHECKMULTISIGVERIFY)
         then
           (* If we are being precise then look for familiar patterns for
              multisig; otherwise, we use the max of 20. *)
           c <- Some precise &&& Some (i >? 0) &&&
                (prev <- index pops (i - 1) ;;
                 Some (value (pop_opcode prev) >=? OP_1)) &&&
                (prev <- index pops (i - 1) ;;
                 Some (value (pop_opcode prev) <=? OP_16)) ;;
           if c then
             prev <- index pops (i - 1) ;;
             Some (int_add nSigs (asSmallInt (value (pop_opcode prev))))
           else Some (int_add nSigs MaxPubKeysPerMultiSig)
         else
           (* Not a sigop. *)
           Some nSigs) ;;
      sigOpLoop rest' pops (i + 1) precise nSigs'
  end.

(** [getSigOpCount] is the implementation function for counting the number
    of signature operations in the script provided by pops. *)
Definition getSigOpCount (pops : list parsedOpcode) (precise : bool) : option Z :=
  sigOpLoop pops pops 0 precise 0.

(** [GetSigOpCount] provides a quick count of the number of signature
    operations in a script.  If the script fails to parse, then the count up
    to the point of failure is returned. *)
Definition GetSigOpCount (script : list byte) : option Z :=
  r <- parseScript script ;;
  getSigOpCount (fst r) false.

(** [GetPreciseSigOpCount] returns the number of signature operations in
    scriptPubKey.  If bip16 is true then scriptSig may be searched for the
    Pay-To-Script-Hash script in order to find the precise number of
    signature operations in the transaction. *)
Definition GetPreciseSigOpCount (scriptSig scriptPubKey : list byte)
  (bip16 : bool) : option Z :=
  (* Don't check error since parseScript returns the parsed-up-to-error
     list of pops. *)
  r <- parseScript scriptPubKey ;;
  let pops := fst r in
  (* Treat non P2SH transactions as normal. *)
  p2sh <- Some bip16 &&& isScriptHash pops ;;
  if negb p2sh then getSigOpCount pops true
  else
    (* Scripts that fail to fully parse count as 0 signature operations. *)
    r <- parseScript scriptSig ;;
    let '(sigPops, err) := r in
    match err with
    | Some _ => Some 0
    | None =>
        bad <- Some (negb (isPushOnly sigPops)) ||| Some (len sigPops =? 0) ;;
        if bad then Some 0
        else
          (* The P2SH script is the last item the signature script pushes. *)
          last <- index sigPops (len sigPops - 1) ;;
          let shScript := pop_data last in
          if len shScript =? 0 then Some 0
          else
            r <- parseScript shScript ;;
            getSigOpCount (fst r) true
    end.

(** ** Specification-side notions *)

(** [segment s i j] is the run of [s] from offset [i] up to offset [j]
    excluded. *)
Definition segment {A : Type} (s : list A) (i j : Z) : list A :=
  firstn (Z.to_nat (j - i)) (skipn (Z.to_nat i) s).

(** The unsigned integer that a run of bytes holds in little-endian order. *)
Fixpoint littleEndian (bs : list byte) : Z :=
  match bs with
  | [] => 0
  | b :: bs' => b + 256 * littleEndian bs'
  end.

(** The advance algorithm of the tokenizer as the specification words it,
    for the instruction of opcode [op] that starts at offset [i]: the
    instruction decoded together with the offset that follows it, or the
    failure. *)
Inductive advance (script : list byte) (op : opcode) (i : Z) : turn -> Prop :=
| advance_nodata :
    length op = 1 ->
    advance script op i (Next (mkParsedOpcode op []) (i + 1))
| advance_fixed :
    length op > 1 -> length op <= len script - i ->
    advance script op i
      (Next (mkParsedOpcode op (segment script (i + 1) (i + length op)))
            (i + length op))
| advance_fixed_short :
    length op > 1 -> len script - i < length op ->
    advance script op i (Fail (scriptError ErrMalformedPush))
| advance_prefix_short :
    length op < 0 -> len script - (i + 1) < - length op ->
    advance script op i (Fail (scriptError ErrMalformedPush))
| advance_prefix_width :
    length op < 0 -> - length op <= len script - (i + 1) ->
    length op <> -1 -> length op <> -2 -> length op <> -4 ->
    advance script op i (Fail (scriptError ErrMalformedPush))
| advance_prefix_overrun l :
    length op = -1 \/ length op = -2 \/ length op = -4 ->
    - length op <= len script - (i + 1) ->
    l = littleEndian (segment script (i + 1) (i + 1 - length op)) ->
    ~ (0 <= l <= len script - (i + 1 - length op)) ->
    advance script op i (Fail (scriptError ErrMalformedPush))
| advance_prefix l :
    length op = -1 \/ length op = -2 \/ length op = -4 ->
    - length op <= len script - (i + 1) ->
    l = littleEndian (segment script (i + 1) (i + 1 - length op)) ->
    0 <= l <= len script - (i + 1 - length op) ->
    advance script op i
      (Next (mkParsedOpcode op
               (segment script (i + 1 - length op) (i + 1 - length op + l)))
            (i + 1 - length op + l))
| advance_stall :
    length op = 0 ->
    advance script op i (Next (mkParsedOpcode op []) i).

(** [decodes script opcodes i pops]: the decoder, started at offset 0,
    reaches offset [i] having decoded exactly the instructions [pops]. *)
Inductive decodes (script : list byte) (opcodes : byte -> opcode)
  : Z -> list parsedOpcode -> Prop :=
| decodes_start : decodes script opcodes 0 []
| decodes_next i pops pop i' :
    decodes script opcodes i pops ->
    i < len script ->
    parseInstr script opcodes i = Some (Next pop i') ->
    decodes script opcodes i' (pops ++ [pop]).

(** The condition under which the instruction that starts at offset [i] is a
    malformed push, in the words of the specification: a fixed-length push
    with fewer than [length] bytes remaining from the opcode byte on, or a
    prefixed-length push whose length prefix is truncated or whose decoded
    length [l] fails [0 <= l <= bytes remaining after the prefix]. *)
Definition malformedPushAt (script : list byte) (opcodes : byte -> opcode)
  (i : Z) : Prop :=
  exists instr, index script i = Some instr /\
    let n := length (opcodes instr) in
    (n > 1 /\ len script - i < n) \/
    (n < 0 /\
     (len script - (i + 1) < - n \/
      (- n <= len script - (i + 1) /\
       let l := littleEndian (segment script (i + 1) (i + 1 - n)) in
       ~ (0 <= l <= len script - (i + 1 - n))))).

(** The opcodes that check one signature and those that check several. *)
Definition singleKeySigOps : list byte :=
  [OP_CHECKSIG; OP_CHECKSIGVERIFY; OP_CHECKSIGALT; OP_CHECKSIGALTVERIFY].

Definition multiKeySigOps : list byte :=
  [OP_CHECKMULTISIG; OP_CHECKMULTISIGVERIFY].

Definition opcodeIn (ops : list byte) (pop : parsedOpcode) : bool :=
  existsb (Byte.eqb (value (pop_opcode pop))) ops.

(** [OP_1] to [OP_16] push the integers 1 to 16. *)
Definition pushesSmallInt (pop : parsedOpcode) : bool :=
  (OP_1 <=? value (pop_opcode pop)) && (value (pop_opcode pop) <=? OP_16).

Definition smallIntPushed (pop : parsedOpcode) : Z :=
  value (pop_opcode pop) - OP_1 + 1.

(** What one instruction contributes to the count, [prev] being the
    instruction immediately before it, if any. *)
Definition sigOpContribution (precise : bool) (prev : option parsedOpcode)
  (pop : parsedOpcode) : Z :=
  if opcodeIn singleKeySigOps pop then 1
  else if opcodeIn multiKeySigOps pop then
    match prev with
    | Some p =>
        if precise && pushesSmallInt p then smallIntPushed p
        else MaxPubKeysPerMultiSig
    | None => MaxPubKeysPerMultiSig
    end
  else 0.

(** The sum of the contributions of the instructions of [pops], [prev] being
    the instruction before the first of them. *)
Fixpoint sigOpSum (precise : bool) (prev : option parsedOpcode)
  (pops : list parsedOpcode) : Z :=
  match pops with
  | [] => 0
  | pop :: pops' =>
      sigOpContribution precise prev pop + sigOpSum precise (Some pop) pops'
  end.

(** An instruction that [removeOpcodeByData] takes for a push of [data]:
    [canonicalPush] holds of it and its data contains [data]. *)
Definition pushesData (data : list byte) (pop : parsedOpcode) : bool :=
  match canonicalPush pop with
  | Some true => bytes_Contains (pop_data pop) data
  | _ => false
  end.

(** ** Notions for the further properties *)

(** The shape of an instruction that the decoder produces: no data for an
    opcode without operand, [length - 1] bytes of data for a fixed-size push,
    and for a prefixed push a data length that fits the width of the
    prefix. *)
Definition wellFormed (pop : parsedOpcode) : Prop :=
  let n := length (pop_opcode pop) in
  (n = 1 /\ pop_data pop = []) \/
  (n > 1 /\ len (pop_data pop) = n - 1) \/
  ((n = -1 \/ n = -2 \/ n = -4) /\ len (pop_data pop) < 256 ^ (- n)).

(** An instruction whose opcode is the entry of the table for its value. *)
Definition fromTable (opcodes : byte -> opcode) (pop : parsedOpcode) : Prop :=
  pop_opcode pop = opcodes (value (pop_opcode pop)).

(** The outcome of a turn seen from a script that has [k] more bytes in
    front. *)
Definition shiftTurn (k : Z) (t : turn) : turn :=
  match t with
  | Next pop i' => Next pop (k + i')
  | Fail e => Fail e
  end.

(** An instruction that is not a signature check. *)
Definition noSigOp (pop : parsedOpcode) : Prop :=
  opcodeIn singleKeySigOps pop = false /\ opcodeIn multiKeySigOps pop = false.

(** ** Canonical pushes, in words *)







(** ** Slices in memory *)












(** ** Sample scripts *)

(** The instruction of opcode [v], as the parser decodes it when it
    carries no data. *)
Definition plainOp (v : byte) : parsedOpcode := mkParsedOpcode (opcodeArray v) [].

Definition sampleSigOps : list parsedOpcode :=
  [plainOp OP_CHECKSIG; plainOp OP_3; plainOp OP_CHECKMULTISIG;
   plainOp OP_CHECKMULTISIGVERIFY; plainOp OP_DUP].

(** A pay-to-script-hash public key script. *)
Definition sampleP2SH : list byte :=
  [OP_HASH160; OP_DATA_20;
   x01; x02; x03; x04; x05; x06; x07; x08; x09; x0a;
   x0b; x0c; x0d; x0e; x0f; x10; x11; x12; x13; x14;
   OP_EQUAL].

(** A redeem script with one multi-key check preceded by [OP_3], and the
    signature script that pushes it. *)
Definition sampleRedeem : list byte := [OP_3; OP_CHECKMULTISIG].

Definition sampleSigScript : list byte := [x02; OP_3; OP_CHECKMULTISIG].

(** A table with an entry of length 0, and one whose entries all announce a
    length prefix of three bytes, which the decoder does not read. *)
Definition stallTable (b : byte) : opcode := mkOpcode b 0.

Definition oddTable (b : byte) : opcode := mkOpcode x00 (-3).

(** ** Tactics *)

(** Decides the integer tests of a goal by linear arithmetic. *)
Ltac ztest :=
  repeat match goal with
    | |- context [?a >? ?b] => rewrite (Z.gtb_ltb a b)
    | |- context [?a >=? ?b] => rewrite (Z.geb_leb a b)
    | |- context [?a =? ?b] => destruct (Z.eqb_spec a b); try lia
    | |- context [?a <? ?b] => destruct (Z.ltb_spec a b); try lia
    | |- context [?a <=? ?b] => destruct (Z.leb_spec a b); try lia
    end.

(** * Proofs *)

(** ** Bytes and bit operations *)

Lemma byte_to_Z_range (b : byte) : 0 <= byte_to_Z b < 256.
Proof. unfold byte_to_Z. pose proof (Byte.to_N_bounded b). lia. Qed.

Lemma byte_of_to_Z (b : byte) : byte_of_Z (byte_to_Z b) = b.
Proof.
  unfold byte_of_Z. pose proof (byte_to_Z_range b) as Hb.
  rewrite Z.mod_small by lia. unfold byte_to_Z.
  rewrite N2Z.id, Byte.of_to_N. reflexivity.
Qed.

Lemma byte_to_of_Z (z : Z) : byte_to_Z (byte_of_Z z) = z mod 256.
Proof.
  unfold byte_of_Z, byte_to_Z.
  assert (Hm : 0 <= z mod 256 < 256) by (apply Z.mod_pos_bound; lia).
  destruct (Byte.of_N (Z.to_N (z mod 256))) as [b|] eqn:E.
  - apply Byte.to_of_N in E. rewrite E. lia.
  - apply Byte.of_N_None_iff in E. lia.
Qed.

Lemma byte_to_Z_inj (a b : byte) : byte_to_Z a = byte_to_Z b -> a = b.
Proof.
  intros H. rewrite <- (byte_of_to_Z a), <- (byte_of_to_Z b), H. reflexivity.
Qed.

Lemma lor_disjoint_add (a b n : Z) :
  0 <= n -> 0 <= b < 2 ^ n -> Z.lor (a * 2 ^ n) b = a * 2 ^ n + b.
Proof.
  intros Hn Hb. rewrite <- Z.add_lor_land.
  assert (Z.land (a * 2 ^ n) b = 0) as ->; [|lia].
  apply Z.bits_inj'. intros m Hm. rewrite Z.land_spec, Z.bits_0.
  destruct (Z.lt_ge_cases m n).
  - rewrite Z.mul_pow2_bits_low by lia. reflexivity.
  - replace b with (b mod 2 ^ n) by (apply Z.mod_small; lia).
    rewrite Z.mod_pow2_bits_high by lia. apply andb_false_r.
Qed.

Lemma land_255 (a : Z) : Z.land a 255 = a mod 256.
Proof. change 255 with (Z.ones 8). rewrite Z.land_ones by lia. reflexivity. Qed.

(** The length read by the decoder on two and on four bytes, as a sum. *)
Lemma le16_sum (b0 b1 : byte) :
  Z.lor (Z.shiftl b1 8) b0 = b0 + 256 * b1.
Proof.
  pose proof (byte_to_Z_range b0). pose proof (byte_to_Z_range b1).
  rewrite Z.shiftl_mul_pow2 by lia.
  rewrite (lor_disjoint_add _ _ 8) by lia. lia.
Qed.

Lemma le32_sum (b0 b1 b2 b3 : byte) :
  Z.lor (Z.lor (Z.lor (Z.shiftl b3 24) (Z.shiftl b2 16)) (Z.shiftl b1 8)) b0
  = b0 + 256 * b1 + 65536 * b2 + 16777216 * b3.
Proof.
  pose proof (byte_to_Z_range b0). pose proof (byte_to_Z_range b1).
  pose proof (byte_to_Z_range b2). pose proof (byte_to_Z_range b3).
  rewrite !Z.shiftl_mul_pow2 by lia.
  rewrite (lor_disjoint_add _ _ 24) by lia.
  replace (byte_to_Z b3 * 2 ^ 24 + byte_to_Z b2 * 2 ^ 16)
    with ((byte_to_Z b3 * 2 ^ 8 + byte_to_Z b2) * 2 ^ 16) by lia.
  rewrite (lor_disjoint_add _ _ 16) by lia.
  replace ((byte_to_Z b3 * 2 ^ 8 + byte_to_Z b2) * 2 ^ 16 + byte_to_Z b1 * 2 ^ 8)
    with ((byte_to_Z b3 * 2 ^ 16 + byte_to_Z b2 * 2 ^ 8 + byte_to_Z b1) * 2 ^ 8)
    by lia.
  rewrite (lor_disjoint_add _ _ 8) by lia. lia.
Qed.

(** The same lengths as [binary.LittleEndian] reads them back. *)
Lemma le16_sum' (b0 b1 : byte) :
  Z.lor b0 (Z.shiftl b1 8) = b0 + 256 * b1.
Proof. rewrite Z.lor_comm. apply le16_sum. Qed.

Lemma le32_sum' (b0 b1 b2 b3 : byte) :
  Z.lor (Z.lor (Z.lor b0 (Z.shiftl b1 8)) (Z.shiftl b2 16)) (Z.shiftl b3 24)
  = b0 + 256 * b1 + 65536 * b2 + 16777216 * b3.
Proof.
  rewrite <- le32_sum.
  rewrite (Z.lor_comm _ (Z.shiftl b3 24)), (Z.lor_comm _ (Z.shiftl b2 16)),
    (Z.lor_comm b0), !Z.lor_assoc.
  reflexivity.
Qed.

Lemma int_of_uint_small (l : Z) : 0 <= l < 2 ^ 63 -> int_of_uint l = l.
Proof.
  intros H. unfold int_of_uint. cbv zeta.
  rewrite Z.mod_small by lia.
  destruct (Z.ltb_spec l (2 ^ 63)); lia.
Qed.

(** ** Slices *)

Lemma len_nonneg {A : Type} (s : list A) : 0 <= len s.
Proof. unfold len. lia. Qed.

Lemma len_nil {A : Type} : len (@nil A) = 0.
Proof. reflexivity. Qed.

Lemma len_cons {A : Type} (x : A) (s : list A) : len (x :: s) = 1 + len s.
Proof. unfold len. cbn [List.length]. lia. Qed.

Lemma len_app {A : Type} (s t : list A) : len (s ++ t) = len s + len t.
Proof. unfold len. rewrite length_app. lia. Qed.

Lemma index_Some {A : Type} (s : list A) (i : Z) (x : A) :
  index s i = Some x ->
  0 <= i < len s /\ nth_error s (Z.to_nat i) = Some x.
Proof.
  unfold index. destruct (Z.leb_spec 0 i), (Z.ltb_spec i (len s)); cbn;
    intros Hn; try discriminate. split; [lia | exact Hn].
Qed.

Lemma index_in_range {A : Type} (s : list A) (i : Z) :
  0 <= i < len s -> exists x, index s i = Some x.
Proof.
  intros H. unfold index.
  destruct (Z.leb_spec 0 i), (Z.ltb_spec i (len s)); try lia. cbn.
  destruct (nth_error s (Z.to_nat i)) as [x|] eqn:E; [eauto|].
  apply nth_error_None in E. unfold len in H. lia.
Qed.

Lemma slice_in_range {A : Type} (s : list A) (lo hi : Z) :
  0 <= lo <= hi -> hi <= len s -> slice s lo hi = Some (segment s lo hi).
Proof.
  intros H1 H2. unfold slice, segment.
  destruct (Z.leb_spec 0 lo), (Z.leb_spec lo hi), (Z.leb_spec hi (len s));
    try lia. reflexivity.
Qed.

Lemma slice_Some {A : Type} (s : list A) (lo hi : Z) (t : list A) :
  slice s lo hi = Some t -> 0 <= lo <= hi /\ hi <= len s /\ t = segment s lo hi.
Proof.
  unfold slice, segment.
  destruct (Z.leb_spec 0 lo), (Z.leb_spec lo hi), (Z.leb_spec hi (len s));
    cbn; intros Hs; try discriminate. inversion Hs. repeat split; lia.
Qed.

Lemma len_segment {A : Type} (s : list A) (i j : Z) :
  0 <= i <= j -> j <= len s -> len (segment s i j) = j - i.
Proof.
  intros H1 H2. unfold segment, len in *.
  rewrite length_firstn, length_skipn. lia.
Qed.

Lemma skipn_nth_error {A : Type} (s : list A) (n : nat) (x : A) :
  nth_error s n = Some x -> skipn n s = x :: skipn (S n) s.
Proof.
  revert s. induction n as [|n IH]; intros [|y s] H; try discriminate.
  - inversion H. reflexivity.
  - cbn in H. apply IH in H. exact H.
Qed.

Lemma segment_cons {A : Type} (s : list A) (i j : Z) (x : A) :
  index s i = Some x -> i < j -> segment s i j = x :: segment s (i + 1) j.
Proof.
  intros Hx Hj. apply index_Some in Hx. destruct Hx as [Hi Hx].
  unfold segment. rewrite (skipn_nth_error _ _ _ Hx).
  replace (Z.to_nat (j - i)) with (S (Z.to_nat (j - (i + 1)))) by lia.
  replace (Z.to_nat (i + 1)) with (S (Z.to_nat i)) by lia.
  reflexivity.
Qed.

Lemma segment_empty {A : Type} (s : list A) (i : Z) : segment s i i = [].
Proof. unfold segment. rewrite Z.sub_diag. reflexivity. Qed.

Lemma firstn_plus {A : Type} (a b : nat) (s : list A) :
  firstn (a + b) s = firstn a s ++ firstn b (skipn a s).
Proof.
  revert s. induction a as [|a IH]; intros [|x s]; cbn; try reflexivity.
  - destruct b; reflexivity.
  - rewrite IH. reflexivity.
Qed.

Lemma firstn_segment {A : Type} (s : list A) (i j : Z) :
  0 <= i <= j ->
  firstn (Z.to_nat i) s ++ segment s i j = firstn (Z.to_nat j) s.
Proof.
  intros H. unfold segment.
  replace (Z.to_nat j) with (Z.to_nat i + Z.to_nat (j - i))%nat by lia.
  rewrite firstn_plus. reflexivity.
Qed.

Lemma firstn_len {A : Type} (s : list A) (i : Z) :
  len s <= i -> firstn (Z.to_nat i) s = s.
Proof. intros H. apply firstn_all2. unfold len in H. lia. Qed.

(** ** Re-encoding of one instruction *)

Lemma byte_of_Z_eq (z : Z) (b : byte) : z mod 256 = byte_to_Z b -> byte_of_Z z = b.
Proof.
  intros H. apply byte_to_Z_inj. rewrite byte_to_of_Z. exact H.
Qed.

Lemma bytes_nodata (op : opcode) :
  length op = 1 ->
  parsedOpcode_bytes (mkParsedOpcode op []) = ([value op], None).
Proof.
  intros Hl. unfold parsedOpcode_bytes. cbn. rewrite Hl. reflexivity.
Qed.

Lemma bytes_fixed (op : opcode) (d : list byte) :
  length op > 1 -> len d = length op - 1 ->
  parsedOpcode_bytes (mkParsedOpcode op d) = (value op :: d, None).
Proof.
  intros Hl Hd. unfold parsedOpcode_bytes. cbn [pop_opcode pop_data].
  assert (Hlen : len ([value op] ++ d) = length op)
    by (cbn [app]; rewrite !len_cons; lia).
  ztest. reflexivity.
Qed.

Lemma bytes_push1 (op : opcode) (d : list byte) (b0 : byte) :
  length op = -1 -> len d = b0 ->
  parsedOpcode_bytes (mkParsedOpcode op d) = (value op :: b0 :: d, None).
Proof.
  intros Hl Hd. unfold parsedOpcode_bytes. cbn [pop_opcode pop_data].
  rewrite Hl, Hd. cbn [Z.eqb negb Pos.eqb]. rewrite byte_of_to_Z.
  assert (Hlen : len (([value op] ++ [b0]) ++ d) = b0 + 2)
    by (cbn [app]; rewrite !len_cons; lia).
  rewrite Hlen, Z.eqb_refl. reflexivity.
Qed.

Lemma bytes_push2 (op : opcode) (d : list byte) (b0 b1 : byte) :
  length op = -2 -> len d = Z.lor (Z.shiftl b1 8) b0 ->
  parsedOpcode_bytes (mkParsedOpcode op d) = (value op :: b0 :: b1 :: d, None).
Proof.
  intros Hl Hd. rewrite le16_sum in Hd.
  pose proof (byte_to_Z_range b0). pose proof (byte_to_Z_range b1).
  unfold parsedOpcode_bytes. cbn [pop_opcode pop_data].
  rewrite Hl, Hd. cbn [Z.eqb negb Pos.eqb].
  rewrite Z.shiftr_div_pow2, !land_255 by lia.
  rewrite (byte_of_Z_eq _ b0), (byte_of_Z_eq _ b1), le16_sum';
    [| change (2 ^ 8) with 256; Z.div_mod_to_equations; lia
     | Z.div_mod_to_equations; lia ].
  assert (Hlen : len (([value op] ++ [b0; b1]) ++ d) = b0 + 256 * b1 + 3)
    by (cbn [app]; rewrite !len_cons; lia).
  rewrite Hlen, Z.eqb_refl. reflexivity.
Qed.

Lemma bytes_push4 (op : opcode) (d : list byte) (b0 b1 b2 b3 : byte) :
  length op = -4 ->
  len d = Z.lor (Z.lor (Z.lor (Z.shiftl b3 24) (Z.shiftl b2 16))
                       (Z.shiftl b1 8)) b0 ->
  parsedOpcode_bytes (mkParsedOpcode op d)
  = (value op :: b0 :: b1 :: b2 :: b3 :: d, None).
Proof.
  intros Hl Hd. rewrite le32_sum in Hd.
  pose proof (byte_to_Z_range b0). pose proof (byte_to_Z_range b1).
  pose proof (byte_to_Z_range b2). pose proof (byte_to_Z_range b3).
  unfold parsedOpcode_bytes. cbn [pop_opcode pop_data].
  rewrite Hl, Hd. cbn [Z.eqb negb Pos.eqb].
  rewrite !Z.shiftr_div_pow2, !land_255 by lia.
  rewrite (byte_of_Z_eq _ b0), (byte_of_Z_eq _ b1), (byte_of_Z_eq _ b2),
    (byte_of_Z_eq _ b3), le32_sum';
    [| change (2 ^ 24) with 16777216; Z.div_mod_to_equations; lia
     | change (2 ^ 16) with 65536; Z.div_mod_to_equations; lia
     | change (2 ^ 8) with 256; Z.div_mod_to_equations; lia
     | Z.div_mod_to_equations; lia ].
  assert (Hlen : len (([value op] ++ [b0; b1; b2; b3]) ++ d)
                 = b0 + 256 * b1 + 65536 * b2 + 16777216 * b3 + 5)
    by (cbn [app]; rewrite !len_cons; lia).
  rewrite Hlen, Z.eqb_refl. reflexivity.
Qed.

(** ** One turn of the decoder *)

Lemma littleEndian_range (bs : list byte) :
  0 <= littleEndian bs < 256 ^ len bs.
Proof.
  induction bs as [|b bs IH]; [cbn; lia|].
  rewrite len_cons. cbn [littleEndian].
  pose proof (byte_to_Z_range b). pose proof (len_nonneg bs).
  rewrite Z.pow_add_r, Z.pow_1_r by lia. nia.
Qed.

Lemma segment_1 {A : Type} (s : list A) (i : Z) (x : A) :
  index s i = Some x -> segment s i (i + 1) = [x].
Proof.
  intros Hx. rewrite (segment_cons _ _ _ _ Hx) by lia.
  rewrite segment_empty. reflexivity.
Qed.

Lemma segment_2 {A : Type} (s : list A) (i : Z) (x y : A) :
  index s i = Some x -> index s (i + 1) = Some y ->
  segment s i (i + 2) = [x; y].
Proof.
  intros Hx Hy. rewrite (segment_cons _ _ _ _ Hx) by lia.
  replace (i + 2) with (i + 1 + 1) by lia.
  rewrite (segment_1 _ _ _ Hy). reflexivity.
Qed.

Lemma segment_4 {A : Type} (s : list A) (i : Z) (x y z w : A) :
  index s i = Some x -> index s (i + 1) = Some y ->
  index s (i + 2) = Some z -> index s (i + 3) = Some w ->
  segment s i (i + 4) = [x; y; z; w].
Proof.
  intros Hx Hy Hz Hw. rewrite (segment_cons _ _ _ _ Hx) by lia.
  rewrite (segment_cons _ _ _ _ Hy) by lia.
  replace (i + 1 + 1) with (i + 2) by lia.
  replace (i + 4) with (i + 2 + 2) by lia.
  replace (i + 3) with (i + 2 + 1) in Hw by lia.
  rewrite (segment_2 _ _ _ _ Hz Hw). reflexivity.
Qed.

Lemma slice_from_in_range {A : Type} (s : list A) (lo : Z) :
  0 <= lo <= len s ->
  exists rest, slice_from s lo = Some rest /\ len rest = len s - lo.
Proof.
  intros H. unfold slice_from. rewrite slice_in_range by lia.
  eexists. split; [reflexivity|]. apply len_segment; lia.
Qed.

Lemma pushLength_width (script : list byte) (op : opcode) (off : Z) :
  length op <> -1 -> length op <> -2 -> length op <> -4 ->
  pushLength script op off = Some (inr (scriptError ErrMalformedPush)).
Proof. intros H1 H2 H4. unfold pushLength. ztest. reflexivity. Qed.

Lemma pushLength_prefix (script : list byte) (op : opcode) (off : Z) :
  length op = -1 \/ length op = -2 \/ length op = -4 ->
  0 <= off -> - length op <= len script - off ->
  pushLength script op off
  = Some (inl (littleEndian (segment script off (off - length op)))).
Proof.
  intros Hw Hoff Hlen. unfold pushLength.
  destruct Hw as [Hw | [Hw | Hw]]; rewrite Hw in *; cbn [Z.eqb Pos.eqb].
  - destruct (index_in_range script off) as [b0 H0]; [lia|].
    rewrite H0. replace (off - -1) with (off + 1) by lia.
    rewrite (segment_1 _ _ _ H0). cbn [littleEndian]. do 2 f_equal. lia.
  - destruct (index_in_range script off) as [b0 H0]; [lia|].
    destruct (index_in_range script (off + 1)) as [b1 H1]; [lia|].
    rewrite H0, H1. replace (off - -2) with (off + 2) by lia.
    rewrite (segment_2 _ _ _ _ H0 H1), le16_sum. cbn [littleEndian].
    do 2 f_equal. lia.
  - destruct (index_in_range script off) as [b0 H0]; [lia|].
    destruct (index_in_range script (off + 1)) as [b1 H1]; [lia|].
    destruct (index_in_range script (off + 2)) as [b2 H2]; [lia|].
    destruct (index_in_range script (off + 3)) as [b3 H3]; [lia|].
    rewrite H0, H1, H2, H3. replace (off - -4) with (off + 4) by lia.
    rewrite (segment_4 _ _ _ _ _ _ H0 H1 H2 H3), le32_sum.
    cbn [littleEndian]. do 2 f_equal. lia.
Qed.

(** The loop body follows the advance algorithm, whatever the table. *)
Lemma parseInstr_advance (script : list byte) (opcodes : byte -> opcode)
  (i : Z) (instr : byte) :
  index script i = Some instr ->
  exists t, parseInstr script opcodes i = Some t /\
            advance script (opcodes instr) i t.
Proof.
  intros Hinstr. pose proof (index_Some _ _ _ Hinstr) as [Hi _].
  unfold parseInstr. rewrite Hinstr.
  set (op := opcodes instr).
  destruct (Z.eqb_spec (length op) 1) as [H1 | H1].
  { eexists. split; [reflexivity|]. now apply advance_nodata. }
  rewrite Z.gtb_ltb.
  destruct (Z.ltb_spec 1 (length op)) as [Hgt | Hgt].
  { destruct (slice_from_in_range script i) as (rest & -> & Hrest); [lia|].
    rewrite Hrest.
    destruct (Z.ltb_spec (len script - i) (length op)) as [Hs | Hs].
    - eexists. split; [reflexivity|]. apply advance_fixed_short; lia.
    - rewrite slice_in_range by lia.
      eexists. split; [reflexivity|]. apply advance_fixed; lia. }
  destruct (Z.ltb_spec (length op) 0) as [Hneg | Hneg].
  2: { eexists. split; [reflexivity|]. apply advance_stall. lia. }
  destruct (slice_from_in_range script (i + 1)) as (rest & -> & Hrest); [lia|].
  rewrite Hrest.
  destruct (Z.ltb_spec (len script - (i + 1)) (- length op)) as [Hs | Hs].
  { eexists. split; [reflexivity|]. apply advance_prefix_short; lia. }
  destruct (Z.eq_dec (length op) (-1)) as [W1 | W1];
    [| destruct (Z.eq_dec (length op) (-2)) as [W2 | W2];
       [| destruct (Z.eq_dec (length op) (-4)) as [W4 | W4]]].
  4: { rewrite pushLength_width by assumption.
       eexists. split; [reflexivity|]. apply advance_prefix_width; lia. }
  all: assert (Hw : length op = -1 \/ length op = -2 \/ length op = -4) by lia.
  all: rewrite (pushLength_prefix _ _ _ Hw) by lia.
  all: set (l := littleEndian (segment script (i + 1) (i + 1 - length op))).
  all: assert (Hl : 0 <= l < 256 ^ 4).
  1,3,5: pose proof (littleEndian_range (segment script (i + 1) (i + 1 - length op))) as Hr;
    rewrite len_segment in Hr by lia; fold l in Hr;
    split; [lia|]; apply Z.lt_le_trans with (1 := proj2 Hr);
    apply Z.pow_le_mono_r; lia.
  all: rewrite int_of_uint_small by lia.
  all: destruct (slice_from_in_range script (i + 1 + - length op))
         as (rest' & -> & Hrest'); [lia|]; rewrite Hrest'.
  all: rewrite Z.gtb_ltb.
  all: destruct (Z.ltb_spec (len script - (i + 1 + - length op)) l) as [Ho | Ho];
    destruct (Z.ltb_spec l 0) as [Hn | Hn]; try lia; cbn [orb].
  all: try (eexists; split; [reflexivity|];
            apply (advance_prefix_overrun _ _ _ l); try assumption;
            try reflexivity; lia).
  all: rewrite slice_in_range by lia.
  all: eexists; split; [reflexivity|].
  all: replace (i + 1 + - length op) with (i + 1 - length op) by lia.
  all: replace (i + (1 - length op + l)) with (i + 1 - length op + l) by lia.
  all: apply advance_prefix; try assumption; try reflexivity; lia.
Qed.

(** An instruction that is decoded re-encodes to the bytes it was read from. *)
Lemma advance_Next_bytes (script : list byte) (op : opcode) (i i' : Z)
  (pop : parsedOpcode) :
  index script i = Some (value op) -> length op <> 0 ->
  advance script op i (Next pop i') ->
  i < i' <= len script /\
  pop_opcode pop = op /\
  parsedOpcode_bytes pop = (segment script i i', None).
Proof.
  intros Hop Hnz Hadv. pose proof (index_Some _ _ _ Hop) as [Hi _].
  inversion Hadv as
    [ H1 | Hgt Hfit | | | | | l Hw Hfit Hl Hin | H0 ]; subst; try lia.
  - split; [lia|]. split; [reflexivity|].
    rewrite bytes_nodata by assumption.
    rewrite (segment_1 _ _ _ Hop). reflexivity.
  - split; [lia|]. split; [reflexivity|].
    rewrite bytes_fixed; [| lia | rewrite len_segment; lia].
    rewrite (segment_cons _ _ _ _ Hop) by lia. reflexivity.
  - split; [lia|]. split; [reflexivity|].
    rewrite (segment_cons _ _ _ _ Hop) by lia.
    destruct Hw as [Hw | [Hw | Hw]]; rewrite Hw in *.
    + destruct (index_in_range script (i + 1)) as [b0 H0]; [lia|].
      replace (i + 1 - -1) with (i + 1 + 1) in * by lia.
      rewrite (segment_1 _ _ _ H0) in *. cbn [littleEndian] in *.
      rewrite (bytes_push1 _ _ b0)
        by (try assumption; rewrite len_segment; lia).
      rewrite (segment_cons _ _ _ _ H0) by lia. reflexivity.
    + destruct (index_in_range script (i + 1)) as [b0 H0]; [lia|].
      destruct (index_in_range script (i + 1 + 1)) as [b1 H1]; [lia|].
      replace (i + 1 - -2) with (i + 1 + 2) in * by lia.
      rewrite (segment_2 _ _ _ _ H0 H1) in *. cbn [littleEndian] in *.
      rewrite (bytes_push2 _ _ b0 b1)
        by (try assumption; rewrite le16_sum, len_segment; lia).
      rewrite (segment_cons _ _ _ _ H0), (segment_cons _ _ _ _ H1) by lia.
      do 4 f_equal. f_equal; lia.
    + destruct (index_in_range script (i + 1)) as [b0 H0]; [lia|].
      destruct (index_in_range script (i + 1 + 1)) as [b1 H1]; [lia|].
      destruct (index_in_range script (i + 1 + 2)) as [b2 H2]; [lia|].
      destruct (index_in_range script (i + 1 + 3)) as [b3 H3]; [lia|].
      replace (i + 1 - -4) with (i + 1 + 4) in * by lia.
      rewrite (segment_4 _ _ _ _ _ _ H0 H1 H2 H3) in *.
      cbn [littleEndian] in *.
      rewrite (bytes_push4 _ _ b0 b1 b2 b3)
        by (try assumption; rewrite le32_sum, len_segment; lia).
      rewrite (segment_cons _ _ _ _ H0), (segment_cons _ _ _ _ H1) by lia.
      replace (i + 1 + 1 + 1) with (i + 1 + 2) by lia.
      rewrite (segment_cons _ _ _ _ H2) by lia.
      replace (i + 1 + 2 + 1) with (i + 1 + 3) by lia.
      rewrite (segment_cons _ _ _ _ H3) by lia.
      do 6 f_equal. f_equal; lia.
Qed.

(** ** The loops of the parser and of the re-encoder *)

Lemma unparseLoop_snoc (pops : list parsedOpcode) (pop : parsedOpcode)
  (acc r b : list byte) :
  unparseLoop pops acc = (r, None) ->
  parsedOpcode_bytes pop = (b, None) ->
  unparseLoop (pops ++ [pop]) acc = (r ++ b, None).
Proof.
  revert acc. induction pops as [|p pops IH]; intros acc Hr Hb; cbn in *.
  - inversion Hr. rewrite Hb. reflexivity.
  - destruct (parsedOpcode_bytes p) as [bp [e|]]; [discriminate|].
    now apply IH.
Qed.

Lemma parseLoop_fuel_mono (fuel fuel' : nat) (script : list byte)
  (opcodes : byte -> opcode) (i : Z) (ret : list parsedOpcode)
  (r : list parsedOpcode * option Error) :
  (fuel <= fuel')%nat ->
  parseLoop fuel script opcodes i ret = Some r ->
  parseLoop fuel' script opcodes i ret = Some r.
Proof.
  revert fuel' i ret. induction fuel as [|fuel IH]; intros fuel' i ret Hle H.
  - cbn in H. destruct fuel'; cbn; destruct (i <? len script);
      try discriminate; exact H.
  - destruct fuel' as [|fuel']; [lia|]. cbn in *.
    destruct (i <? len script); [|exact H].
    destruct (parseInstr script opcodes i) as [[pop i'|e]|];
      try discriminate; [|exact H].
    apply IH; [lia | exact H].
Qed.

(** A run of the decoder that has reached [i] with [ret] goes on as the loop
    does from there. *)
Lemma decodes_parseLoop (script : list byte) (opcodes : byte -> opcode)
  (i : Z) (ret : list parsedOpcode) :
  decodes script opcodes i ret ->
  forall fuel r, parseLoop fuel script opcodes i ret = Some r ->
  exists fuel', parseLoop fuel' script opcodes 0 [] = Some r.
Proof.
  induction 1 as [|i pops pop i' Hd IH Hi Hp]; intros fuel r Hr.
  - eauto.
  - apply (IH (S fuel)). cbn.
    destruct (Z.ltb_spec i (len script)); [|lia].
    rewrite Hp. exact Hr.
Qed.

Section Table.
Variable opcodes : byte -> opcode.
Hypothesis opcodes_value : forall b, value (opcodes b) = b.
Hypothesis opcodes_length : forall b, length (opcodes b) <> 0.
Variable script : list byte.

Lemma parseInstr_Next (i i' : Z) (pop : parsedOpcode) :
  0 <= i < len script ->
  parseInstr script opcodes i = Some (Next pop i') ->
  i < i' <= len script /\
  parsedOpcode_bytes pop = (segment script i i', None).
Proof.
  intros Hi Hp. destruct (index_in_range script i Hi) as [instr Hinstr].
  destruct (parseInstr_advance script opcodes i instr Hinstr)
    as (t & Ht & Hadv).
  rewrite Hp in Ht. inversion Ht; subst t.
  destruct (advance_Next_bytes script (opcodes instr) i i' pop)
    as (Hb & _ & Hbytes); auto.
  rewrite opcodes_value. exact Hinstr.
Qed.

Lemma decodes_bounds (i : Z) (pops : list parsedOpcode) :
  decodes script opcodes i pops -> 0 <= i <= len script.
Proof.
  induction 1 as [|i pops pop i' Hd IH Hi Hp].
  - pose proof (len_nonneg script). lia.
  - destruct (parseInstr_Next i i' pop) as [Hb _]; auto; lia.
Qed.

(** Round trip along a run: the instructions decoded up to offset [i]
    re-encode to the first [i] bytes of the script. *)
Lemma decodes_unparse (i : Z) (pops : list parsedOpcode) :
  decodes script opcodes i pops ->
  unparseScript pops = (firstn (Z.to_nat i) script, None).
Proof.
  induction 1 as [|i pops pop i' Hd IH Hi Hp].
  - reflexivity.
  - pose proof (decodes_bounds _ _ Hd) as Hb.
    destruct (parseInstr_Next i i' pop) as [Hb' Hbytes]; [lia | assumption |].
    unfold unparseScript in *.
    rewrite (unparseLoop_snoc _ _ _ _ _ IH Hbytes).
    rewrite firstn_segment by lia. reflexivity.
Qed.

(** The loop returns, and it returns the run it stopped at. *)
Lemma parseLoop_run (fuel : nat) (i : Z) (ret : list parsedOpcode) :
  decodes script opcodes i ret ->
  len script - i <= Z.of_nat fuel ->
  exists pops err j,
    parseLoop fuel script opcodes i ret = Some (pops, err) /\
    decodes script opcodes j pops /\
    match err with
    | None => j = len script
    | Some e => j < len script /\
                parseInstr script opcodes j = Some (Fail e)
    end.
Proof.
  revert i ret. induction fuel as [|fuel IH]; intros i ret Hd Hfuel;
    pose proof (decodes_bounds _ _ Hd) as Hb; cbn [parseLoop].
  - destruct (Z.ltb_spec i (len script)); [lia|].
    exists ret, None, i. repeat split; [assumption | lia].
  - destruct (Z.ltb_spec i (len script)) as [Hi | Hi].
    2: { exists ret, None, i. repeat split; [assumption | lia]. }
    destruct (index_in_range script i) as [instr Hinstr]; [lia|].
    destruct (parseInstr_advance script opcodes i instr Hinstr)
      as ([pop i' | e] & Ht & _); rewrite Ht.
    + destruct (parseInstr_Next i i' pop) as [Hb' _]; [lia | assumption |].
      apply IH; [| lia].
      now apply decodes_next with (i := i).
    + exists ret, (Some e), i. repeat split; assumption.
Qed.

Lemma parseScriptTemplate_run :
  exists pops err j,
    parseScriptTemplate script opcodes = Some (pops, err) /\
    decodes script opcodes j pops /\
    match err with
    | None => j = len script
    | Some e => j < len script /\
                parseInstr script opcodes j = Some (Fail e)
    end.
Proof.
  apply parseLoop_run; [constructor | unfold len; lia].
Qed.

(** Conversely a run that stops on a failure is the one that is returned. *)
Lemma decodes_Fail_parseScriptTemplate (i : Z) (pops : list parsedOpcode)
  (e : Error) :
  decodes script opcodes i pops ->
  i < len script ->
  parseInstr script opcodes i = Some (Fail e) ->
  parseScriptTemplate script opcodes = Some (pops, Some e).
Proof.
  intros Hd Hi Hp.
  destruct (decodes_parseLoop _ _ _ _ Hd 1%nat (pops, Some e)) as [fuel' Hf].
  { cbn. destruct (Z.ltb_spec i (len script)); [|lia].
    rewrite Hp. reflexivity. }
  destruct parseScriptTemplate_run as (pops' & err' & j & Hrun & _).
  rewrite Hrun. unfold parseScriptTemplate in Hrun.
  apply (parseLoop_fuel_mono _ (Nat.max fuel' (List.length script))) in Hf;
    [| lia].
  apply (parseLoop_fuel_mono _ (Nat.max fuel' (List.length script))) in Hrun;
    [| lia].
  rewrite Hf in Hrun. symmetry. exact Hrun.
Qed.
End Table.

Lemma opcodeArray_value (b : byte) : value (opcodeArray b) = b.
Proof. reflexivity. Qed.

Lemma opcodeArray_length (b : byte) :
  length (opcodeArray b) = 1 \/
  (1 < length (opcodeArray b) /\ length (opcodeArray b) = b + 1 /\
   1 <= b <= 75) \/
  length (opcodeArray b) = -1 \/ length (opcodeArray b) = -2 \/
  length (opcodeArray b) = -4.
Proof.
  unfold opcodeArray. cbn [length].
  change (byte_to_Z OP_DATA_1) with 1. change (byte_to_Z OP_DATA_75) with 75.
  destruct (Z.leb_spec 1 b), (Z.leb_spec b 75); cbn [andb]; try lia.
  all: ztest; lia.
Qed.

Lemma opcodeArray_length_nonzero (b : byte) : length (opcodeArray b) <> 0.
Proof. pose proof (opcodeArray_length b). lia. Qed.

(** ** Parsing and re-encoding *)

Lemma parseInstr_Fail_malformed (script : list byte) (i : Z) (e : Error) :
  parseInstr script opcodeArray i = Some (Fail e) ->
  e = scriptError ErrMalformedPush /\ malformedPushAt script opcodeArray i.
Proof.
  intros Hp.
  destruct (index script i) as [instr|] eqn:Hinstr.
  2: { unfold parseInstr in Hp. rewrite Hinstr in Hp. discriminate. }
  destruct (parseInstr_advance script opcodeArray i instr Hinstr)
    as (t & Ht & Hadv).
  rewrite Hp in Ht. inversion Ht; subst t.
  pose proof (opcodeArray_length instr) as Hlen.
  inversion Hadv as
    [ | | Hgt Hs | Hneg Hs | Hneg Hs W1 W2 W4 | l Hw Hfit Hl Hout | | ];
    subst; (split; [reflexivity|]); exists instr; (split; [assumption|]);
    cbv zeta; lia.
Qed.

Lemma malformed_parseInstr_Fail (script : list byte) (i : Z) :
  malformedPushAt script opcodeArray i ->
  parseInstr script opcodeArray i = Some (Fail (scriptError ErrMalformedPush)).
Proof.
  intros (instr & Hinstr & Hbad). cbv zeta in Hbad.
  destruct (parseInstr_advance script opcodeArray i instr Hinstr)
    as (t & Ht & Hadv).
  rewrite Ht. f_equal.
  inversion Hadv; subst; try reflexivity; exfalso; lia.
Qed.

(** C1.  Round trip of the parser: for every byte buffer [b], [parseScript]
    returns; when it succeeds the decoded sequence re-encodes with
    [unparseScript] to [b] exactly; when it fails, the partial sequence it
    returns re-encodes to the first [i] bytes of [b], a strict prefix, where
    [i] is the offset at which the instruction that fails begins. *)
Theorem parseScript_unparseScript (b : list byte) :
  exists pops err,
    parseScript b = Some (pops, err) /\
    match err with
    | None => unparseScript pops = (b, None)
    | Some e =>
        exists i,
          0 <= i < len b /\
          decodes b opcodeArray i pops /\
          parseInstr b opcodeArray i = Some (Fail e) /\
          unparseScript pops = (firstn (Z.to_nat i) b, None) /\
          firstn (Z.to_nat i) b <> b
    end.
Proof.
  destruct (parseScriptTemplate_run opcodeArray opcodeArray_value
              opcodeArray_length_nonzero b) as (pops & err & j & Hrun & Hd & Hj).
  exists pops, err. split; [exact Hrun|].
  pose proof (decodes_unparse opcodeArray opcodeArray_value
                opcodeArray_length_nonzero b j pops Hd) as Hu.
  pose proof (decodes_bounds opcodeArray opcodeArray_value
                opcodeArray_length_nonzero b j pops Hd) as Hb.
  destruct err as [e|].
  - destruct Hj as [Hlt Hfail]. exists j. repeat split; try assumption; try lia.
    intros Heq. apply (f_equal (@List.length byte)) in Heq.
    rewrite length_firstn in Heq. unfold len in Hlt. lia.
  - subst j. rewrite Hu, firstn_len by lia. reflexivity.
Qed.

(** C2.  [parseScript] fails with a malformed-push error if and only if the
    decoder reaches an instruction that is a malformed push (its push data
    cannot be satisfied by what remains of the buffer); [parseScript] fails
    with no other kind of error; and in every such case the partial sequence
    returned is exactly the sequence of the instructions decoded before the
    failing one. *)
Theorem parseScript_MalformedPush_iff (b : list byte) :
  ((exists pops e, parseScript b = Some (pops, Some e) /\
                   errorCode e = ErrMalformedPush)
   <-> (exists i pops, decodes b opcodeArray i pops /\
                       malformedPushAt b opcodeArray i)) /\
  (forall i pops,
     decodes b opcodeArray i pops -> malformedPushAt b opcodeArray i ->
     parseScript b = Some (pops, Some (scriptError ErrMalformedPush))) /\
  (forall pops e, parseScript b = Some (pops, Some e) ->
                  errorCode e = ErrMalformedPush).
Proof.
  assert (Hconv : forall i pops,
            decodes b opcodeArray i pops -> malformedPushAt b opcodeArray i ->
            parseScript b = Some (pops, Some (scriptError ErrMalformedPush))).
  { intros i pops Hd Hbad.
    apply (decodes_Fail_parseScriptTemplate opcodeArray opcodeArray_value
             opcodeArray_length_nonzero b i pops); try assumption.
    - destruct Hbad as (instr & Hinstr & _).
      apply index_Some in Hinstr. lia.
    - now apply malformed_parseInstr_Fail. }
  assert (Hdir : forall pops e, parseScript b = Some (pops, Some e) ->
            e = scriptError ErrMalformedPush /\
            exists i, decodes b opcodeArray i pops /\
                      malformedPushAt b opcodeArray i).
  { intros pops e Hp.
    destruct (parseScriptTemplate_run opcodeArray opcodeArray_value
                opcodeArray_length_nonzero b)
      as (pops' & err' & j & Hrun & Hd & Hj).
    unfold parseScript in Hp. rewrite Hp in Hrun. inversion Hrun; subst.
    destruct Hj as [_ Hfail]. apply parseInstr_Fail_malformed in Hfail.
    destruct Hfail as [He Hbad]. split; [exact He|]. eauto. }
  split; [split|split].
  - intros (pops & e & Hp & _). destruct (Hdir _ _ Hp) as [_ [i [Hd Hbad]]].
    eauto.
  - intros (i & pops & Hd & Hbad). exists pops, (scriptError ErrMalformedPush).
    split; [eauto | reflexivity].
  - exact Hconv.
  - intros pops e Hp. destruct (Hdir _ _ Hp) as [-> _]. reflexivity.
Qed.

(** ** Counting signature operations *)

Lemma byte_eqb_Z (a b : byte) : Byte.eqb a b = (byte_to_Z a =? byte_to_Z b).
Proof.
  destruct (Z.eqb_spec a b) as [E | E].
  - apply byte_to_Z_inj in E. subst. now apply Byte.byte_dec_lb.
  - destruct (Byte.eqb a b) eqn:Eb; [|reflexivity].
    apply Byte.byte_dec_bl in Eb. subst. contradiction.
Qed.

Lemma len_snoc {A : Type} (d : list A) (x : A) : len (d ++ [x]) = len d + 1.
Proof. unfold len. rewrite length_app. cbn [List.length]. lia. Qed.

Lemma index_app_last {A : Type} (d rest : list A) (x : A) :
  index ((d ++ [x]) ++ rest) (len (d ++ [x]) - 1) = Some x.
Proof.
  unfold index. rewrite !len_snoc, len_app, len_snoc.
  pose proof (len_nonneg d). pose proof (len_nonneg rest).
  destruct (Z.leb_spec 0 (len d + 1 - 1)); [|lia].
  destruct (Z.ltb_spec (len d + 1 - 1) (len d + 1 + len rest)); [|lia].
  cbn [andb]. rewrite <- app_assoc.
  replace (Z.to_nat (len d + 1 - 1)) with (List.length d + 0)%nat
    by (unfold len; lia).
  rewrite nth_error_app2 by lia.
  replace (List.length d + 0 - List.length d)%nat with 0%nat by lia.
  reflexivity.
Qed.

Lemma int_add_small (a b : Z) : 0 <= a + b < 2 ^ 63 -> int_add a b = a + b.
Proof. intros H. unfold int_add. now apply int_of_uint_small. Qed.

Lemma asSmallInt_pushed (p : parsedOpcode) :
  pushesSmallInt p = true ->
  asSmallInt (value (pop_opcode p)) = smallIntPushed p /\
  1 <= smallIntPushed p <= 16.
Proof.
  unfold pushesSmallInt, asSmallInt, smallIntPushed.
  change (byte_to_Z OP_1) with 81. change (byte_to_Z OP_16) with 96.
  change (byte_to_Z OP_0) with 0.
  intros H. apply andb_true_iff in H. destruct H as [H1 H2].
  apply Z.leb_le in H1, H2.
  destruct (Z.eqb_spec (value (pop_opcode p)) 0); [lia|].
  rewrite byte_to_of_Z. rewrite Z.mod_small by lia. lia.
Qed.

Lemma sigOpContribution_range (precise : bool) (prev : option parsedOpcode)
  (pop : parsedOpcode) :
  0 <= sigOpContribution precise prev pop <= MaxPubKeysPerMultiSig.
Proof.
  unfold sigOpContribution, MaxPubKeysPerMultiSig.
  destruct (opcodeIn singleKeySigOps pop); [lia|].
  destruct (opcodeIn multiKeySigOps pop); [|lia].
  destruct prev as [p|]; [|lia].
  destruct precise; cbn [andb]; [|lia].
  destruct (pushesSmallInt p) eqn:E; [|lia].
  apply asSmallInt_pushed in E. lia.
Qed.

(** One turn of the loop of [getSigOpCount] adds the contribution of the
    instruction, as long as the running count stays below [2 ^ 63]. *)
Lemma sigOpLoop_sum (precise : bool) (pops rest : list parsedOpcode) :
  forall (done : list parsedOpcode) (prev : option parsedOpcode) (nSigs : Z),
    pops = done ++ rest ->
    match prev with
    | None => done = []
    | Some p => exists done', done = done' ++ [p]
    end ->
    0 <= nSigs ->
    nSigs + MaxPubKeysPerMultiSig * len rest < 2 ^ 63 ->
    sigOpLoop rest pops (len done) precise nSigs
    = Some (nSigs + sigOpSum precise prev rest).
Proof.
  induction rest as [|pop rest IH]; intros done prev nSigs Hpops Hprev H0 Hmax.
  - cbn. f_equal. lia.
  - rewrite len_cons in Hmax. pose proof (len_nonneg rest) as Hrest.
    pose proof (sigOpContribution_range precise prev pop) as Hc.
    cbn [sigOpLoop sigOpSum].
    assert (Hturn :
      (if (value (pop_opcode pop) =? OP_CHECKSIG)
          || (value (pop_opcode pop) =? OP_CHECKSIGVERIFY)
          || (value (pop_opcode pop) =? OP_CHECKSIGALT)
          || (value (pop_opcode pop) =? OP_CHECKSIGALTVERIFY)
       then Some (int_add nSigs 1)
       else if (value (pop_opcode pop) =? OP_CHECKMULTISIG)
               || (value (pop_opcode pop) =? OP_CHECKMULTISIGVERIFY)
       then
         c <- Some precise &&& Some (len done >? 0) &&&
              (prev <- index pops (len done - 1) ;;
               Some (value (pop_opcode prev) >=? OP_1)) &&&
              (prev <- index pops (len done - 1) ;;
               Some (value (pop_opcode prev) <=? OP_16)) ;;
         if c then
           prev <- index pops (len done - 1) ;;
           Some (int_add nSigs (asSmallInt (value (pop_opcode prev))))
         else Some (int_add nSigs MaxPubKeysPerMultiSig)
       else Some nSigs)
      = Some (nSigs + sigOpContribution precise prev pop)).
    { revert Hc. unfold sigOpContribution, opcodeIn, singleKeySigOps,
        multiKeySigOps. cbn [existsb].
      rewrite !byte_eqb_Z, !orb_false_r, !orb_assoc.
      intros Hc.
      destruct ((value (pop_opcode pop) =? OP_CHECKSIG)
                || (value (pop_opcode pop) =? OP_CHECKSIGVERIFY)
                || (value (pop_opcode pop) =? OP_CHECKSIGALT)
                || (value (pop_opcode pop) =? OP_CHECKSIGALTVERIFY)).
      { rewrite int_add_small by (unfold MaxPubKeysPerMultiSig in *; lia).
        reflexivity. }
      destruct ((value (pop_opcode pop) =? OP_CHECKMULTISIG)
                || (value (pop_opcode pop) =? OP_CHECKMULTISIGVERIFY));
        [| f_equal; lia].
      destruct prev as [p|].
      - destruct Hprev as [done' ->]. subst pops.
        rewrite index_app_last.
        assert (Hpos : (len (done' ++ [p]) >? 0) = true).
        { rewrite len_snoc. pose proof (len_nonneg done').
          apply Z.gtb_lt. lia. }
        rewrite Hpos. unfold pushesSmallInt in *. rewrite Z.geb_leb.
        destruct precise; cbn [andthen andb].
        + destruct (OP_1 <=? value (pop_opcode p)) eqn:E1; cbn [andb].
          * destruct (value (pop_opcode p) <=? OP_16) eqn:E2.
            -- destruct (asSmallInt_pushed p) as [-> Hr];
                 [unfold pushesSmallInt; now rewrite E1, E2|].
               rewrite int_add_small
                 by (unfold MaxPubKeysPerMultiSig in *; lia).
               reflexivity.
            -- rewrite int_add_small
                 by (unfold MaxPubKeysPerMultiSig in *; lia).
               reflexivity.
          * rewrite int_add_small by (unfold MaxPubKeysPerMultiSig in *; lia).
            reflexivity.
        + rewrite int_add_small by (unfold MaxPubKeysPerMultiSig in *; lia).
          reflexivity.
      - subst done. change (len (@nil parsedOpcode)) with 0.
        cbn [Z.gtb Z.compare]. destruct precise; cbn [andthen];
          rewrite int_add_small by (unfold MaxPubKeysPerMultiSig in *; lia);
          reflexivity. }
    rewrite Hturn.
    rewrite <- (len_snoc done pop).
    rewrite (IH (done ++ [pop]) (Some pop)).
    + f_equal. lia.
    + rewrite Hpops, <- app_assoc. reflexivity.
    + eauto.
    + lia.
    + unfold MaxPubKeysPerMultiSig in *. lia.
Qed.

Lemma sigOpSum_precise_le (prev : option parsedOpcode)
  (pops : list parsedOpcode) :
  sigOpSum true prev pops <= sigOpSum false prev pops.
Proof.
  revert prev. induction pops as [|pop pops IH]; intros prev; cbn; [lia|].
  specialize (IH (Some pop)).
  assert (sigOpContribution true prev pop <= sigOpContribution false prev pop);
    [|lia].
  unfold sigOpContribution.
  destruct (opcodeIn singleKeySigOps pop); [lia|].
  destruct (opcodeIn multiKeySigOps pop); [|lia].
  destruct prev as [p|]; [|lia]. cbn [andb].
  destruct (pushesSmallInt p) eqn:E; [|lia].
  apply asSmallInt_pushed in E. unfold MaxPubKeysPerMultiSig. lia.
Qed.

(** C3.  [getSigOpCount] never fails and returns the sum over the sequence
    of the contributions of its instructions: 1 for a single-key signature
    check; for a multi-key signature check the integer pushed by the
    instruction immediately before it when [precise] is set and that
    instruction is one of [OP_1] to [OP_16], and [MaxPubKeysPerMultiSig]
    otherwise; 0 for any other opcode.  The count is a Go [int]: the sequence
    is taken short enough for twenty times its length to fit, as any slice
    held in memory is. *)
Theorem getSigOpCount_sum (pops : list parsedOpcode) (precise : bool) :
  MaxPubKeysPerMultiSig * len pops < 2 ^ 63 ->
  getSigOpCount pops precise = Some (sigOpSum precise None pops).
Proof.
  intros Hlen. unfold getSigOpCount.
  change 0 with (len (@nil parsedOpcode)) at 1.
  rewrite (sigOpLoop_sum precise pops pops [] None 0); auto; lia.
Qed.

Lemma getSigOpCount_sum_witness :
  MaxPubKeysPerMultiSig * len sampleSigOps < 2 ^ 63 /\
  getSigOpCount sampleSigOps true = Some (sigOpSum true None sampleSigOps).
Proof.
  assert (H : MaxPubKeysPerMultiSig * len sampleSigOps < 2 ^ 63)
    by (vm_compute; reflexivity).
  split; [exact H | exact (getSigOpCount_sum sampleSigOps true H)].
Defined.

Example getSigOpCount_sample :
  getSigOpCount sampleSigOps true = Some 24 /\
  getSigOpCount sampleSigOps false = Some 41.
Proof. split; vm_compute; reflexivity. Qed.

(** C9.  For a sequence that contains a multi-key signature check which is
    not immediately preceded by a push of a small integer ([OP_1] to
    [OP_16]; the reading that also counts [OP_0] as a small integer asks for
    more and is covered), the count that is not precise is at least the
    precise one. *)
Theorem getSigOpCount_precise_le (pops : list parsedOpcode) :
  MaxPubKeysPerMultiSig * len pops < 2 ^ 63 ->
  (exists i pop,
      index pops i = Some pop /\ opcodeIn multiKeySigOps pop = true /\
      (i = 0 \/ exists prev, index pops (i - 1) = Some prev /\
                             pushesSmallInt prev = false)) ->
  exists nMax nPrecise,
    getSigOpCount pops false = Some nMax /\
    getSigOpCount pops true = Some nPrecise /\
    nMax >= nPrecise.
Proof.
  intros Hlen _. unfold getSigOpCount.
  change 0 with (len (@nil parsedOpcode)) at 1 3.
  rewrite !(sigOpLoop_sum _ pops pops [] None 0) by (auto; lia).
  do 2 eexists. repeat split.
  pose proof (sigOpSum_precise_le None pops). lia.
Qed.

Lemma getSigOpCount_precise_le_witness :
  exists nMax nPrecise,
    getSigOpCount sampleSigOps false = Some nMax /\
    getSigOpCount sampleSigOps true = Some nPrecise /\
    nMax >= nPrecise.
Proof.
  apply (getSigOpCount_precise_le sampleSigOps).
  - vm_compute. reflexivity.
  - exists 3, (plainOp OP_CHECKMULTISIGVERIFY).
    split; [reflexivity|]. split; [reflexivity|].
    right. exists (plainOp OP_CHECKMULTISIG). split; reflexivity.
Defined.

(** ** Classification *)

Lemma byte_eqb_eq (a b : byte) : (byte_to_Z a =? byte_to_Z b) = true <-> a = b.
Proof.
  rewrite Z.eqb_eq. split; [apply byte_to_Z_inj | now intros ->].
Qed.

Lemma len_eqb_cons {A : Type} (x : A) (s : list A) (n : Z) :
  (len (x :: s) =? n) = (len s =? n - 1).
Proof. rewrite len_cons. ztest. Qed.

Lemma len_eqb_neg {A : Type} (s : list A) (n : Z) :
  n < 0 -> (len s =? n) = false.
Proof. intros H. pose proof (len_nonneg s). ztest. Qed.

Lemma index_0 {A : Type} (x : A) (s : list A) : index (x :: s) 0 = Some x.
Proof.
  unfold index. rewrite len_cons. pose proof (len_nonneg s).
  ztest. reflexivity.
Qed.

Lemma index_1 {A : Type} (x y : A) (s : list A) :
  index (x :: y :: s) 1 = Some y.
Proof.
  unfold index. rewrite !len_cons. pose proof (len_nonneg s).
  ztest. reflexivity.
Qed.

Lemma index_2 {A : Type} (x y z : A) (s : list A) :
  index (x :: y :: z :: s) 2 = Some z.
Proof.
  unfold index. rewrite !len_cons. pose proof (len_nonneg s).
  ztest. reflexivity.
Qed.

Lemma index_3 {A : Type} (x y z w : A) (s : list A) :
  index (x :: y :: z :: w :: s) 3 = Some w.
Proof.
  unfold index. rewrite !len_cons. pose proof (len_nonneg s).
  ztest. reflexivity.
Qed.

Lemma isScriptHash_pattern (pops : list parsedOpcode) :
  isScriptHash pops
  = Some match pops with
         | [p0; p1; p2] =>
             (value (pop_opcode p0) =? OP_HASH160) &&
             (value (pop_opcode p1) =? OP_DATA_20) &&
             (value (pop_opcode p2) =? OP_EQUAL)
         | _ => false
         end.
Proof.
  unfold isScriptHash.
  destruct pops as [|p0 [|p1 [|p2 [|p3 rest]]]];
    rewrite ?len_eqb_cons; try reflexivity.
  - unfold opcodeAt. rewrite index_0, index_1, index_2.
    destruct (value (pop_opcode p0) =? OP_HASH160),
      (value (pop_opcode p1) =? OP_DATA_20),
      (value (pop_opcode p2) =? OP_EQUAL); reflexivity.
  - rewrite len_eqb_neg by lia. reflexivity.
Qed.

Lemma isStakeScriptHash_pattern (pops : list parsedOpcode) :
  isStakeScriptHash pops
  = Some match pops with
         | [p0; p1; p2; p3] =>
             isStakeOpcode (value (pop_opcode p0)) &&
             (value (pop_opcode p1) =? OP_HASH160) &&
             (value (pop_opcode p2) =? OP_DATA_20) &&
             (value (pop_opcode p3) =? OP_EQUAL)
         | _ => false
         end.
Proof.
  unfold isStakeScriptHash.
  destruct pops as [|p0 [|p1 [|p2 [|p3 [|p4 rest]]]]];
    rewrite ?len_eqb_cons; try reflexivity.
  - unfold opcodeAt. rewrite index_0, index_1, index_2, index_3.
    destruct (isStakeOpcode (value (pop_opcode p0))),
      (value (pop_opcode p1) =? OP_HASH160),
      (value (pop_opcode p2) =? OP_DATA_20),
      (value (pop_opcode p3) =? OP_EQUAL); reflexivity.
  - rewrite len_eqb_neg by lia. reflexivity.
Qed.

(** C7.  The three pattern predicates return on every decoded sequence.
    [isScriptHash] is true exactly on the sequences of three instructions of
    opcodes [OP_HASH160], [OP_DATA_20], [OP_EQUAL] in that order;
    [isStakeScriptHash] is true exactly on the sequences of four instructions
    whose first opcode lies between [OP_SSTX] and [OP_SSTXCHANGE] and whose
    other three are [OP_HASH160], [OP_DATA_20], [OP_EQUAL];
    [isAnyKindOfScriptHash] is the disjunction of the two. *)
Theorem scriptHash_patterns (pops : list parsedOpcode) :
  exists sh ssh,
    isScriptHash pops = Some sh /\
    isStakeScriptHash pops = Some ssh /\
    isAnyKindOfScriptHash pops = Some (sh || ssh) /\
    (sh = true <->
     exists p0 p1 p2,
       pops = [p0; p1; p2] /\
       value (pop_opcode p0) = OP_HASH160 /\
       value (pop_opcode p1) = OP_DATA_20 /\
       value (pop_opcode p2) = OP_EQUAL) /\
    (ssh = true <->
     exists p0 p1 p2 p3,
       pops = [p0; p1; p2; p3] /\
       OP_SSTX <= value (pop_opcode p0) <= OP_SSTXCHANGE /\
       value (pop_opcode p1) = OP_HASH160 /\
       value (pop_opcode p2) = OP_DATA_20 /\
       value (pop_opcode p3) = OP_EQUAL).
Proof.
  do 2 eexists.
  split; [apply isScriptHash_pattern|].
  split; [apply isStakeScriptHash_pattern|].
  split.
  { unfold isAnyKindOfScriptHash, orelse.
    rewrite isScriptHash_pattern, isStakeScriptHash_pattern.
    match goal with |- (if ?c then _ else _) = _ => destruct c end;
      reflexivity. }
  split.
  - split.
    + destruct pops as [|p0 [|p1 [|p2 [|p3 rest]]]]; try discriminate.
      intros H. apply andb_true_iff in H. destruct H as [H H2].
      apply andb_true_iff in H. destruct H as [H0 H1].
      apply byte_eqb_eq in H0, H1, H2. exists p0, p1, p2. auto.
    + intros (p0 & p1 & p2 & -> & -> & -> & ->). reflexivity.
  - split.
    + destruct pops as [|p0 [|p1 [|p2 [|p3 [|p4 rest]]]]]; try discriminate.
      intros H. apply andb_true_iff in H. destruct H as [H H3].
      apply andb_true_iff in H. destruct H as [H H2].
      apply andb_true_iff in H. destruct H as [H0 H1].
      apply byte_eqb_eq in H1, H2, H3. exists p0, p1, p2, p3.
      unfold isStakeOpcode in H0. rewrite Z.geb_leb in H0.
      apply andb_true_iff in H0. destruct H0 as [Ha Hb].
      apply Z.leb_le in Ha, Hb. auto.
    + intros (p0 & p1 & p2 & p3 & -> & [Ha Hb] & -> & -> & ->).
      unfold isStakeOpcode. rewrite Z.geb_leb.
      apply Z.leb_le in Ha, Hb. rewrite Ha, Hb. reflexivity.
Qed.

Lemma parseScript_total (b : list byte) :
  exists pops err, parseScript b = Some (pops, err).
Proof.
  destruct (parseScriptTemplate_run opcodeArray opcodeArray_value
              opcodeArray_length_nonzero b) as (pops & err & j & Hrun & _).
  eauto.
Qed.

Lemma isPushOnly_Forall (pops : list parsedOpcode) :
  isPushOnly pops = true <->
  Forall (fun pop => value (pop_opcode pop) <= OP_16) pops.
Proof.
  induction pops as [|pop pops IH]; cbn [isPushOnly].
  - split; [constructor | reflexivity].
  - rewrite Z.gtb_ltb.
    destruct (Z.ltb_spec OP_16 (value (pop_opcode pop))) as [Hgt | Hle].
    + split; [discriminate|]. intros H. inversion H; subst. lia.
    + rewrite IH. split.
      * intros H. constructor; assumption.
      * intros H. inversion H; assumption.
Qed.

(** C6.  [IsPushOnlyScript] and [IsPayToScriptHash] return a boolean on every
    byte buffer; both return false when the buffer does not parse; on a
    buffer that parses, [IsPushOnlyScript] is true exactly when the opcode
    value of every instruction is at most [OP_16], which lets the reserved
    opcode [OP_RESERVED] through. *)
Theorem IsPushOnlyScript_IsPayToScriptHash_total (b : list byte) :
  exists pops err pushOnly p2sh,
    parseScript b = Some (pops, err) /\
    IsPushOnlyScript b = Some pushOnly /\
    IsPayToScriptHash b = Some p2sh /\
    match err with
    | Some _ => pushOnly = false /\ p2sh = false
    | None =>
        (pushOnly = true <->
         Forall (fun pop => value (pop_opcode pop) <= OP_16) pops)
    end /\
    IsPushOnlyScript [OP_RESERVED] = Some true.
Proof.
  destruct (parseScript_total b) as (pops & err & Hp).
  unfold IsPushOnlyScript, IsPayToScriptHash. rewrite Hp.
  exists pops, err. destruct err as [e|].
  - exists false, false. repeat split.
  - rewrite isScriptHash_pattern. do 2 eexists.
    split; [reflexivity|]. split; [reflexivity|]. split; [reflexivity|].
    split; [apply isPushOnly_Forall | reflexivity].
Qed.

(** C10.  On the empty buffer parsing succeeds with the empty sequence, the
    push-only predicate holds of a sequence without instructions, and so
    [IsPushOnlyScript] returns true. *)
Theorem IsPushOnlyScript_empty :
  parseScript [] = Some ([], None) /\
  isPushOnly [] = true /\
  IsPushOnlyScript [] = Some true.
Proof. repeat split. Qed.

(** C5.  [IsUnspendable] returns on every amount and every script, and it
    returns true exactly when the amount is zero, or the script fails to
    parse, or the decoded sequence starts with an [OP_RETURN] instruction.
    In particular it is false for an amount that is not zero and a script
    that parses to one of the pay-to-script-hash patterns. *)
Theorem IsUnspendable_iff (amount : Z) (pkScript : list byte) :
  exists pops err unspendable,
    parseScript pkScript = Some (pops, err) /\
    IsUnspendable amount pkScript = Some unspendable /\
    (unspendable = true <->
     amount = 0 \/ err <> None \/
     exists pop rest,
       pops = pop :: rest /\ value (pop_opcode pop) = OP_RETURN) /\
    (amount <> 0 -> err = None -> isAnyKindOfScriptHash pops = Some true ->
     unspendable = false).
Proof.
  destruct (parseScript_total pkScript) as (pops & err & Hp).
  exists pops, err. unfold IsUnspendable. rewrite Hp.
  destruct (Z.eqb_spec amount 0) as [Ha | Ha].
  { exists true. repeat split; auto. contradiction. }
  destruct err as [e|].
  { exists true. repeat split; auto.
    - intros _. right. left. discriminate.
    - discriminate. }
  destruct pops as [|pop rest].
  { exists false. repeat split; auto; try discriminate.
    intros [H | [H | (pop & rest & H & _)]];
      [contradiction | contradiction | discriminate]. }
  exists (value (pop_opcode pop) =? OP_RETURN).
  split; [reflexivity|]. split.
  { unfold opcodeAt. rewrite index_0, len_cons.
    pose proof (len_nonneg rest).
    rewrite Z.gtb_ltb. destruct (Z.ltb_spec 0 (1 + len rest)); [|lia].
    reflexivity. }
  split.
  - rewrite byte_eqb_eq. split.
    + intros H. right. right. eauto.
    + intros [H | [H | (pop' & rest' & H & Hv)]];
        [contradiction | contradiction |].
      inversion H; subst. exact Hv.
  - intros _ _ Hsh.
    unfold isAnyKindOfScriptHash, orelse in Hsh.
    rewrite isScriptHash_pattern, isStakeScriptHash_pattern in Hsh.
    destruct (value (pop_opcode pop) =? OP_RETURN) eqn:E; [|reflexivity].
    apply byte_eqb_eq in E. exfalso.
    destruct rest as [|p1 [|p2 [|p3 [|p4 rest]]]]; try rewrite E in Hsh;
      cbn in Hsh; discriminate.
Qed.

(** ** Removal of the pushes of some data *)



Lemma canonicalPush_total (pop : parsedOpcode) :
  exists c, canonicalPush pop = Some c.
Proof.
  unfold canonicalPush.
  destruct (value (pop_opcode pop) >? OP_16); [eauto|].
  assert (Hguard : exists c,
    Some (value (pop_opcode pop) <? OP_PUSHDATA1) &&&
    Some (value (pop_opcode pop) >? OP_0) &&&
    (Some (len (pop_data pop) =? 1) &&&
     (d0 <- index (pop_data pop) 0 ;; Some (d0 <=? 16))) = Some c).
  { destruct (value (pop_opcode pop) <? OP_PUSHDATA1); [|cbn; eauto].
    destruct (value (pop_opcode pop) >? OP_0); [|cbn; eauto].
    destruct (pop_data pop) as [|d0 data].
    - cbn. eauto.
    - rewrite index_0. destruct (len (d0 :: data) =? 1); cbn; eauto. }
  destruct Hguard as [c ->]. destruct c; [eauto|].
  repeat match goal with
         | |- context [if ?t then _ else _] => destruct t
         end; eauto.
Qed.

Lemma removeLoop_filter (data : list byte) (pkscript : list parsedOpcode) :
  forall retScript,
    removeLoop pkscript data retScript
    = Some (retScript ++ filter (fun pop => negb (pushesData data pop)) pkscript).
Proof.
  induction pkscript as [|pop pkscript IH]; intros retScript; cbn [removeLoop filter].
  - rewrite app_nil_r. reflexivity.
  - unfold pushesData. destruct (canonicalPush_total pop) as [c ->].
    destruct c; cbn [orelse negb].
    + destruct (bytes_Contains (pop_data pop) data); cbn [negb].
      * apply IH.
      * rewrite IH, <- app_assoc. reflexivity.
    + rewrite IH, <- app_assoc. reflexivity.
Qed.

(** With an empty target every instruction of which [canonicalPush] holds
    goes, an instruction without data included. *)
Example removeOpcodeByData_empty_target :
  removeOpcodeByData
    [mkParsedOpcode (opcodeArray OP_DUP) [];
     mkParsedOpcode (opcodeArray OP_PUSHDATA1) [x07];
     mkParsedOpcode (opcodeArray OP_DATA_1) [x2a]] []
  = Some [mkParsedOpcode (opcodeArray OP_PUSHDATA1) [x07]].
Proof. vm_compute. reflexivity. Qed.

(** ** Counting with the pay-to-script-hash rule *)

Lemma index_last {A : Type} (front : list A) (x : A) :
  index (front ++ [x]) (len (front ++ [x]) - 1) = Some x.
Proof.
  pose proof (index_app_last front [] x) as H.
  rewrite app_nil_r in H. exact H.
Qed.

(** C4.  [GetPreciseSigOpCount] decodes [scriptPubKey] and goes on with what
    was decoded whether or not it parsed in full.  Unless [bip16] is set and
    that sequence is the script-hash pattern, the result is its precise
    count.  Otherwise the result is 0 when [scriptSig] does not parse in
    full, when it is not push-only, when it is empty and when the data of its
    last instruction is empty; in the remaining case that data is decoded,
    once more keeping what was decoded before a failure, and the result is
    the precise count of it. *)
Theorem GetPreciseSigOpCount_cases (scriptSig scriptPubKey : list byte)
  (bip16 : bool) :
  exists pops err sh,
    parseScript scriptPubKey = Some (pops, err) /\
    isScriptHash pops = Some sh /\
    if negb (bip16 && sh) then
      GetPreciseSigOpCount scriptSig scriptPubKey bip16
      = getSigOpCount pops true
    else
      exists sigPops sigErr,
        parseScript scriptSig = Some (sigPops, sigErr) /\
        match sigErr with
        | Some _ => GetPreciseSigOpCount scriptSig scriptPubKey bip16 = Some 0
        | None =>
            if negb (isPushOnly sigPops) then
              GetPreciseSigOpCount scriptSig scriptPubKey bip16 = Some 0
            else
              match rev sigPops with
              | [] => GetPreciseSigOpCount scriptSig scriptPubKey bip16 = Some 0
              | last :: _ =>
                  match pop_data last with
                  | [] =>
                      GetPreciseSigOpCount scriptSig scriptPubKey bip16
                      = Some 0
                  | _ :: _ =>
                      exists shPops shErr,
                        parseScript (pop_data last) = Some (shPops, shErr) /\
                        GetPreciseSigOpCount scriptSig scriptPubKey bip16
                        = getSigOpCount shPops true
                  end
              end
        end.
Proof.
  destruct (parseScript_total scriptPubKey) as (pops & err & Hp).
  exists pops, err. eexists.
  split; [exact Hp|]. split; [apply isScriptHash_pattern|].
  unfold GetPreciseSigOpCount. rewrite Hp. cbn [fst].
  rewrite isScriptHash_pattern.
  set (sh := match pops with
             | [p0; p1; p2] => _
             | _ => false
             end).
  assert (Hc : Some bip16 &&& Some sh = Some (bip16 && sh))
    by (destruct bip16; reflexivity).
  rewrite Hc. destruct (negb (bip16 && sh)); [reflexivity|].
  destruct (parseScript_total scriptSig) as (sigPops & sigErr & Hs).
  exists sigPops, sigErr. split; [exact Hs|]. rewrite Hs.
  destruct sigErr as [e|]; [reflexivity|].
  destruct (isPushOnly sigPops); cbn [negb orelse]; [|reflexivity].
  destruct (rev sigPops) as [|last front] eqn:Hrev.
  - apply (f_equal (@rev parsedOpcode)) in Hrev.
    rewrite rev_involutive in Hrev. subst sigPops. reflexivity.
  - apply (f_equal (@rev parsedOpcode)) in Hrev.
    rewrite rev_involutive in Hrev. cbn [rev] in Hrev. subst sigPops.
    assert (Hne : (len (rev front ++ [last]) =? 0) = false).
    { rewrite len_snoc. pose proof (len_nonneg (rev front)). ztest. }
    rewrite Hne, index_last.
    destruct (pop_data last) as [|d0 data] eqn:Hdata; [reflexivity|].
    assert (Hd : (len (d0 :: data) =? 0) = false).
    { rewrite len_cons. pose proof (len_nonneg data). ztest. }
    rewrite Hd.
    destruct (parseScript_total (d0 :: data)) as (shPops & shErr & Hsh).
    exists shPops, shErr. split; [exact Hsh|]. rewrite Hsh. reflexivity.
Qed.

(** ** The scenarios of the specification *)

Example parse_prefixed_push :
  parseScript [OP_HASH160; OP_DATA_1; x07; OP_EQUAL; OP_PUSHDATA2; x02; x00; x09; x0a]
  = Some ([plainOp OP_HASH160;
           mkParsedOpcode (opcodeArray OP_DATA_1) [x07];
           plainOp OP_EQUAL;
           mkParsedOpcode (opcodeArray OP_PUSHDATA2) [x09; x0a]], None).
Proof. vm_compute. reflexivity. Qed.

(** A push that declares five bytes of data when two remain. *)
Example parse_truncated_push :
  parseScript [x05; x01; x02] = Some ([], Some (scriptError ErrMalformedPush)) /\
  parseScript [OP_DUP; x05; x01; x02]
  = Some ([plainOp OP_DUP], Some (scriptError ErrMalformedPush)).
Proof. split; vm_compute; reflexivity. Qed.

Example classify_p2sh :
  IsPayToScriptHash sampleP2SH = Some true /\
  (r <- parseScript sampleP2SH ;; isStakeScriptHash (fst r)) = Some false /\
  IsPushOnlyScript sampleP2SH = Some false.
Proof. repeat split; vm_compute; reflexivity. Qed.

Example IsUnspendable_samples :
  IsUnspendable 0 sampleP2SH = Some true /\
  IsUnspendable 1 [OP_RETURN; OP_DATA_1; x2a] = Some true /\
  IsUnspendable 1 sampleP2SH = Some false /\
  IsUnspendable 1 [OP_DUP; OP_DATA_1] = Some true.
Proof. repeat split; vm_compute; reflexivity. Qed.

Example GetPreciseSigOpCount_p2sh :
  GetPreciseSigOpCount sampleSigScript sampleP2SH true = Some 3 /\
  GetPreciseSigOpCount sampleSigScript sampleP2SH false = Some 0 /\
  GetPreciseSigOpCount [] sampleP2SH true = Some 0 /\
  GetPreciseSigOpCount [OP_DUP; x02] sampleP2SH true = Some 0 /\
  GetSigOpCount sampleRedeem = Some 20.
Proof. repeat split; vm_compute; reflexivity. Qed.

(** * Further properties of the code *)

(** ** What the decoder produces *)

Lemma advance_Next_wellFormed (script : list byte) (op : opcode) (i i' : Z)
  (pop : parsedOpcode) :
  0 <= i -> length op <> 0 ->
  advance script op i (Next pop i') ->
  pop_opcode pop = op /\ wellFormed pop /\ i < i'.
Proof.
  intros Hi Hnz Hadv.
  inversion Hadv as
    [ H1 | Hgt Hfit | | | | | l Hw Hfit Hl Hin | H0 ]; subst; try lia;
    (split; [reflexivity|]); unfold wellFormed; cbn [pop_opcode pop_data].
  - split; [auto | lia].
  - split; [| lia]. right. left. split; [lia|]. rewrite len_segment; lia.
  - split; [| lia]. right. right. split; [exact Hw|].
    rewrite len_segment by lia.
    pose proof (littleEndian_range
                  (segment script (i + 1) (i + 1 - length op))) as Hr.
    rewrite len_segment in Hr by lia.
    replace (i + 1 - length op - (i + 1)) with (- length op) in Hr by lia.
    lia.
Qed.

Lemma decodes_wellFormed (script : list byte) (opcodes : byte -> opcode)
  (i : Z) (pops : list parsedOpcode) :
  (forall b, value (opcodes b) = b) ->
  (forall b, length (opcodes b) <> 0) ->
  decodes script opcodes i pops ->
  Forall (fun pop => wellFormed pop /\ fromTable opcodes pop) pops /\
  len pops <= i.
Proof.
  intros Hval Hnz. induction 1 as [|i pops pop i' Hd [IHf IHl] Hi Hp].
  - split; [constructor | cbn; lia].
  - pose proof (decodes_bounds opcodes Hval Hnz script i pops Hd) as Hb.
    destruct (index_in_range script i) as [instr Hinstr]; [lia|].
    destruct (parseInstr_advance script opcodes i instr Hinstr)
      as (t & Ht & Hadv).
    rewrite Hp in Ht. inversion Ht; subst t.
    destruct (advance_Next_wellFormed _ _ _ _ _ (proj1 Hb) (Hnz instr) Hadv)
      as (Hop & Hwf & Hlt).
    split.
    + apply Forall_app. split; [exact IHf|]. constructor; [|constructor].
      split; [exact Hwf|]. unfold fromTable. rewrite Hop, Hval. reflexivity.
    + rewrite len_snoc. lia.
Qed.

(** ** Scripts put end to end *)

Lemma segment_app_l {A : Type} (a b : list A) (x y : Z) :
  0 <= x <= y -> y <= len a -> segment (a ++ b) x y = segment a x y.
Proof.
  intros Hx Hy. unfold segment, len in *.
  rewrite skipn_app, firstn_app, length_skipn.
  replace (Z.to_nat (y - x) - (List.length a - Z.to_nat x))%nat with 0%nat
    by lia.
  rewrite firstn_0, app_nil_r. reflexivity.
Qed.

Lemma segment_app_r {A : Type} (a b : list A) (x y : Z) :
  0 <= x -> segment (a ++ b) (len a + x) (len a + y) = segment b x y.
Proof.
  intros Hx. unfold segment, len.
  rewrite skipn_app, skipn_all2 by lia.
  replace (Z.to_nat (Z.of_nat (List.length a) + x) - List.length a)%nat
    with (Z.to_nat x) by lia.
  replace (Z.of_nat (List.length a) + y - (Z.of_nat (List.length a) + x))
    with (y - x) by lia.
  reflexivity.
Qed.

Lemma segment_all {A : Type} (s : list A) : segment s 0 (len s) = s.
Proof.
  unfold segment, len. cbn [Z.to_nat skipn].
  apply firstn_all2. lia.
Qed.

Lemma index_app_l {A : Type} (a b : list A) (i : Z) (x : A) :
  index a i = Some x -> index (a ++ b) i = Some x.
Proof.
  intros H. apply index_Some in H. destruct H as [Hi Hn].
  unfold index. rewrite len_app. pose proof (len_nonneg b).
  destruct (Z.leb_spec 0 i), (Z.ltb_spec i (len a + len b)); try lia.
  cbn [andb]. rewrite nth_error_app1; [exact Hn|]. unfold len in Hi. lia.
Qed.

Lemma index_app_r {A : Type} (a b : list A) (i : Z) :
  0 <= i -> index (a ++ b) (len a + i) = index b i.
Proof.
  intros Hi. unfold index. rewrite len_app. pose proof (len_nonneg a).
  destruct (Z.leb_spec 0 i); [|lia].
  destruct (Z.leb_spec 0 (len a + i)); [|lia].
  destruct (Z.ltb_spec i (len b)), (Z.ltb_spec (len a + i) (len a + len b));
    try lia; cbn [andb]; [|reflexivity].
  rewrite nth_error_app2 by (unfold len; lia).
  f_equal. unfold len. lia.
Qed.

(** The advance algorithm has one outcome. *)
Lemma advance_functional (script : list byte) (op : opcode) (i : Z)
  (t1 t2 : turn) :
  advance script op i t1 -> advance script op i t2 -> t1 = t2.
Proof.
  intros H1 H2.
  inversion H1; subst; inversion H2; subst; try reflexivity; try lia.
Qed.

(** A turn that decodes an instruction reads nothing beyond it. *)
Lemma advance_app (a b : list byte) (op : opcode) (i i' : Z)
  (pop : parsedOpcode) :
  0 <= i ->
  advance a op i (Next pop i') -> advance (a ++ b) op i (Next pop i').
Proof.
  intros Hi Hadv. pose proof (len_nonneg b) as Hb.
  inversion Hadv as
    [ H1 | Hgt Hfit | | | | | l Hw Hfit Hl Hin | H0 ]; subst.
  - now apply advance_nodata.
  - rewrite <- (segment_app_l a b) by lia.
    apply advance_fixed; [assumption | rewrite len_app; lia].
  - rewrite <- (segment_app_l a b (i + 1 - length op)) by lia.
    rewrite <- (segment_app_l a b (i + 1)) by lia.
    apply advance_prefix; try assumption; try reflexivity;
      rewrite ?len_app; try lia.
    rewrite segment_app_l by lia. lia.
  - now apply advance_stall.
Qed.

(** A turn at offset [i] of [b] is the turn at offset [len a + i] of
    [a ++ b]. *)
Lemma advance_shift (a b : list byte) (op : opcode) (i : Z) (t : turn) :
  0 <= i ->
  advance b op i t -> advance (a ++ b) op (len a + i) (shiftTurn (len a) t).
Proof.
  intros Hi Hadv.
  assert (Hlen : forall k, len (a ++ b) - (len a + k) = len b - k)
    by (intros k; rewrite len_app; lia).
  inversion Hadv as
    [ H1 | Hgt Hfit | Hgt Hs | Hneg Hs | Hneg Hs W1 W2 W4
    | l Hw Hfit Hl Hout | l Hw Hfit Hl Hin | H0 ]; subst; cbn [shiftTurn].
  - replace (len a + (i + 1)) with (len a + i + 1) by lia.
    now apply advance_nodata.
  - rewrite <- (segment_app_r a b) by lia.
    replace (len a + (i + 1)) with (len a + i + 1) by lia.
    replace (len a + (i + length op)) with (len a + i + length op) by lia.
    apply advance_fixed; [assumption | rewrite Hlen; lia].
  - apply advance_fixed_short; [assumption | rewrite Hlen; lia].
  - apply advance_prefix_short; [assumption |].
    replace (len a + i + 1) with (len a + (i + 1)) by lia.
    rewrite Hlen; lia.
  - apply advance_prefix_width; try assumption.
    replace (len a + i + 1) with (len a + (i + 1)) by lia.
    rewrite Hlen; lia.
  - apply (advance_prefix_overrun _ _ _
             (littleEndian (segment b (i + 1) (i + 1 - length op))));
      try assumption.
    + replace (len a + i + 1) with (len a + (i + 1)) by lia.
      rewrite Hlen; lia.
    + replace (len a + i + 1) with (len a + (i + 1)) by lia.
      replace (len a + (i + 1) - length op)
        with (len a + (i + 1 - length op)) by lia.
      rewrite segment_app_r by lia. reflexivity.
    + replace (len a + i + 1 - length op)
        with (len a + (i + 1 - length op)) by lia.
      rewrite Hlen. exact Hout.
  - set (l := littleEndian (segment b (i + 1) (i + 1 - length op))) in *.
    rewrite <- (segment_app_r a b (i + 1 - length op)) by lia.
    replace (len a + (i + 1 - length op)) with (len a + i + 1 - length op)
      by lia.
    replace (len a + (i + 1 - length op + l))
      with (len a + i + 1 - length op + l) by lia.
    apply advance_prefix; try assumption.
    + replace (len a + i + 1) with (len a + (i + 1)) by lia.
      rewrite Hlen; lia.
    + replace (len a + i + 1) with (len a + (i + 1)) by lia.
      replace (len a + (i + 1) - length op)
        with (len a + (i + 1 - length op)) by lia.
      rewrite segment_app_r by lia. reflexivity.
    + replace (len a + i + 1 - length op)
        with (len a + (i + 1 - length op)) by lia.
      rewrite Hlen. lia.
  - now apply advance_stall.
Qed.

Lemma parseInstr_index (script : list byte) (opcodes : byte -> opcode)
  (i : Z) (t : turn) :
  parseInstr script opcodes i = Some t ->
  exists instr, index script i = Some instr /\
                advance script (opcodes instr) i t.
Proof.
  intros Hp. destruct (index script i) as [instr|] eqn:Hinstr.
  2: { unfold parseInstr in Hp. rewrite Hinstr in Hp. discriminate. }
  destruct (parseInstr_advance script opcodes i instr Hinstr)
    as (t' & Ht & Hadv).
  rewrite Hp in Ht. inversion Ht; subst t'. eauto.
Qed.

Lemma parseInstr_app (a b : list byte) (opcodes : byte -> opcode) (i i' : Z)
  (pop : parsedOpcode) :
  parseInstr a opcodes i = Some (Next pop i') ->
  parseInstr (a ++ b) opcodes i = Some (Next pop i').
Proof.
  intros Hp. destruct (parseInstr_index _ _ _ _ Hp) as (instr & Hinstr & Hadv).
  pose proof (index_Some _ _ _ Hinstr) as [Hi _].
  destruct (parseInstr_advance (a ++ b) opcodes i instr
              (index_app_l a b i instr Hinstr)) as (t & Ht & Hadv').
  rewrite Ht. f_equal.
  apply (advance_functional (a ++ b) (opcodes instr) i); [exact Hadv'|].
  apply advance_app; [lia | exact Hadv].
Qed.

Lemma parseInstr_shift (a b : list byte) (opcodes : byte -> opcode) (i : Z)
  (t : turn) :
  parseInstr b opcodes i = Some t ->
  parseInstr (a ++ b) opcodes (len a + i) = Some (shiftTurn (len a) t).
Proof.
  intros Hp. destruct (parseInstr_index _ _ _ _ Hp) as (instr & Hinstr & Hadv).
  pose proof (index_Some _ _ _ Hinstr) as [Hi _].
  assert (Hinstr' : index (a ++ b) (len a + i) = Some instr)
    by (rewrite index_app_r by lia; exact Hinstr).
  destruct (parseInstr_advance (a ++ b) opcodes (len a + i) instr Hinstr')
    as (t' & Ht & Hadv').
  rewrite Ht. f_equal.
  apply (advance_functional (a ++ b) (opcodes instr) (len a + i));
    [exact Hadv'|].
  apply advance_shift; [lia | exact Hadv].
Qed.

Lemma advance_Next_le (script : list byte) (op : opcode) (i i' : Z)
  (pop : parsedOpcode) :
  advance script op i (Next pop i') -> i <= i'.
Proof. intros H. inversion H; subst; lia. Qed.

(** The loop on [a ++ b], once it is past [a], does what the loop on [b]
    does. *)
Lemma parseLoop_shift (a b : list byte) (opcodes : byte -> opcode)
  (popsA : list parsedOpcode) (fuel : nat) :
  forall i ret,
    0 <= i ->
    parseLoop fuel (a ++ b) opcodes (len a + i) (popsA ++ ret)
    = match parseLoop fuel b opcodes i ret with
      | Some (pops, err) => Some (popsA ++ pops, err)
      | None => None
      end.
Proof.
  induction fuel as [|fuel IH]; intros i ret Hi; cbn [parseLoop];
    rewrite len_app;
    destruct (Z.ltb_spec i (len b)), (Z.ltb_spec (len a + i) (len a + len b));
    try lia; try reflexivity.
  destruct (index_in_range b i) as [instr Hinstr]; [lia|].
  destruct (parseInstr_advance b opcodes i instr Hinstr) as (t & Ht & Hadv).
  rewrite (parseInstr_shift a b opcodes i t Ht), Ht.
  destruct t as [pop i'|e]; cbn [shiftTurn]; [|reflexivity].
  rewrite <- app_assoc. apply IH.
  apply advance_Next_le in Hadv. lia.
Qed.

Lemma decodes_app (a b : list byte) (opcodes : byte -> opcode) (i : Z)
  (pops : list parsedOpcode) :
  decodes a opcodes i pops -> decodes (a ++ b) opcodes i pops.
Proof.
  induction 1 as [|i pops pop i' Hd IH Hi Hp]; [constructor|].
  apply decodes_next with (i := i); [exact IH | |].
  - rewrite len_app. pose proof (len_nonneg b). lia.
  - now apply parseInstr_app.
Qed.

Section Composition.
Variable opcodes : byte -> opcode.
Hypothesis opcodes_value : forall b, value (opcodes b) = b.
Hypothesis opcodes_length : forall b, length (opcodes b) <> 0.

(** What the loop returns from a point that a run has reached is what the
    parser returns. *)
Lemma decodes_parseLoop_result (script : list byte) (i : Z)
  (ret : list parsedOpcode) (fuel : nat)
  (r : list parsedOpcode * option Error) :
  decodes script opcodes i ret ->
  parseLoop fuel script opcodes i ret = Some r ->
  parseScriptTemplate script opcodes = Some r.
Proof.
  intros Hd Hr.
  destruct (decodes_parseLoop _ _ _ _ Hd fuel r Hr) as [fuel' Hf].
  destruct (parseScriptTemplate_run opcodes opcodes_value opcodes_length script)
    as (pops' & err' & j & Hrun & _).
  rewrite Hrun. unfold parseScriptTemplate in Hrun.
  apply (parseLoop_fuel_mono _ (Nat.max fuel' (List.length script))) in Hf;
    [| lia].
  apply (parseLoop_fuel_mono _ (Nat.max fuel' (List.length script))) in Hrun;
    [| lia].
  rewrite Hf in Hrun. symmetry. exact Hrun.
Qed.

Lemma parseScriptTemplate_decodes (script : list byte)
  (pops : list parsedOpcode) :
  parseScriptTemplate script opcodes = Some (pops, None) ->
  decodes script opcodes (len script) pops.
Proof.
  intros Hp.
  destruct (parseScriptTemplate_run opcodes opcodes_value opcodes_length script)
    as (pops' & err' & j & Hrun & Hd & Hj).
  rewrite Hp in Hrun. inversion Hrun; subst pops' err'.
  cbv beta iota in Hj. rewrite <- Hj. exact Hd.
Qed.

Lemma parseScriptTemplate_app (a b : list byte)
  (popsA popsB : list parsedOpcode) (err : option Error) :
  parseScriptTemplate a opcodes = Some (popsA, None) ->
  parseScriptTemplate b opcodes = Some (popsB, err) ->
  parseScriptTemplate (a ++ b) opcodes = Some (popsA ++ popsB, err).
Proof.
  intros Ha Hb. apply parseScriptTemplate_decodes in Ha.
  apply (decodes_parseLoop_result (a ++ b) (len a) popsA (List.length b)).
  - now apply decodes_app.
  - pose proof (parseLoop_shift a b opcodes popsA (List.length b) 0 []) as H.
    rewrite Z.add_0_r, app_nil_r in H. rewrite H by lia.
    unfold parseScriptTemplate in Hb. rewrite Hb. reflexivity.
Qed.
End Composition.

(** ** Decoding what was encoded *)

Lemma split8 (l : Z) : 0 <= l < 256 -> exists b0 : byte, l = b0.
Proof.
  intros H. exists (byte_of_Z l). rewrite byte_to_of_Z, Z.mod_small; lia.
Qed.

Lemma split16 (l : Z) :
  0 <= l < 256 ^ 2 -> exists b0 b1 : byte, l = b0 + 256 * b1.
Proof.
  intros H. exists (byte_of_Z l), (byte_of_Z (l / 256)).
  rewrite !byte_to_of_Z. Z.div_mod_to_equations. lia.
Qed.

Lemma split32 (l : Z) :
  0 <= l < 256 ^ 4 ->
  exists b0 b1 b2 b3 : byte,
    l = b0 + 256 * b1 + 65536 * b2 + 16777216 * b3.
Proof.
  intros H.
  exists (byte_of_Z l), (byte_of_Z (l / 256)), (byte_of_Z (l / 65536)),
    (byte_of_Z (l / 16777216)).
  rewrite !byte_to_of_Z. Z.div_mod_to_equations. lia.
Qed.

Lemma advance_fixed_intro (script : list byte) (op : opcode) (i i' : Z)
  (data : list byte) :
  length op > 1 -> length op <= len script - i ->
  data = segment script (i + 1) (i + length op) -> i' = i + length op ->
  advance script op i (Next (mkParsedOpcode op data) i').
Proof. intros H1 H2 -> ->. now apply advance_fixed. Qed.

Lemma advance_prefix_intro (script : list byte) (op : opcode) (i i' l : Z)
  (data : list byte) :
  length op = -1 \/ length op = -2 \/ length op = -4 ->
  - length op <= len script - (i + 1) ->
  l = littleEndian (segment script (i + 1) (i + 1 - length op)) ->
  0 <= l <= len script - (i + 1 - length op) ->
  data = segment script (i + 1 - length op) (i + 1 - length op + l) ->
  i' = i + 1 - length op + l ->
  advance script op i (Next (mkParsedOpcode op data) i').
Proof. intros H1 H2 H3 H4 -> ->. now apply advance_prefix. Qed.

(** The bytes of a well-formed instruction, and how they decode. *)
Lemma wellFormed_bytes (op : opcode) (data : list byte) :
  wellFormed (mkParsedOpcode op data) ->
  exists bs,
    parsedOpcode_bytes (mkParsedOpcode op data) = (bs, None) /\
    index bs 0 = Some (value op) /\
    advance bs op 0 (Next (mkParsedOpcode op data) (len bs)).
Proof.
  unfold wellFormed. cbn [pop_opcode pop_data].
  pose proof (len_nonneg data) as Hd.
  intros [[Hn ->] | [[Hn Hl] | [Hn Hl]]].
  - exists [value op]. rewrite bytes_nodata by assumption.
    split; [reflexivity|]. split; [reflexivity|]. now apply advance_nodata.
  - exists ([value op] ++ data). rewrite bytes_fixed by assumption.
    split; [reflexivity|]. split; [apply index_0|].
    assert (Hlen : len ([value op] ++ data) = length op)
      by (rewrite len_app, len_cons, len_nil; lia).
    apply advance_fixed_intro; try lia.
    change (0 + 1) with (len [value op] + 0).
    replace (0 + length op) with (len [value op] + len data)
      by (rewrite len_cons, len_nil; lia).
    rewrite segment_app_r, segment_all by lia. reflexivity.
  - destruct Hn as [Hn | [Hn | Hn]]; rewrite Hn in Hl.
    + destruct (split8 (len data)) as [b0 H0]; [lia|].
      exists ([value op; b0] ++ data).
      rewrite (bytes_push1 op data b0) by assumption.
      split; [reflexivity|]. split; [apply index_0|].
      assert (Hlen : len ([value op; b0] ++ data) = 2 + len data)
        by (rewrite len_app, !len_cons, len_nil; lia).
      apply (advance_prefix_intro _ _ _ _ (len data)); rewrite ?Hn, ?Hlen;
        try lia.
      * change (0 + 1 - -1) with 2.
        rewrite segment_app_l by (rewrite ?len_cons, ?len_nil; lia).
        change (segment [value op; b0] (0 + 1) 2) with [b0].
        cbn [littleEndian]. lia.
      * change (0 + 1 - -1) with (len [value op; b0] + 0).
        change 2 with (len [value op; b0]).
        rewrite segment_app_r, segment_all by lia. reflexivity.
    + destruct (split16 (len data)) as (b0 & b1 & H0); [lia|].
      exists ([value op; b0; b1] ++ data).
      rewrite (bytes_push2 op data b0 b1)
        by (try assumption; rewrite le16_sum; lia).
      split; [reflexivity|]. split; [apply index_0|].
      assert (Hlen : len ([value op; b0; b1] ++ data) = 3 + len data)
        by (rewrite len_app, !len_cons, len_nil; lia).
      apply (advance_prefix_intro _ _ _ _ (len data)); rewrite ?Hn, ?Hlen;
        try lia.
      * change (0 + 1 - -2) with 3.
        rewrite segment_app_l by (rewrite ?len_cons, ?len_nil; lia).
        change (segment [value op; b0; b1] (0 + 1) 3) with [b0; b1].
        cbn [littleEndian]. lia.
      * change (0 + 1 - -2) with (len [value op; b0; b1] + 0).
        change 3 with (len [value op; b0; b1]).
        rewrite segment_app_r, segment_all by lia. reflexivity.
    + destruct (split32 (len data)) as (b0 & b1 & b2 & b3 & H0); [lia|].
      exists ([value op; b0; b1; b2; b3] ++ data).
      rewrite (bytes_push4 op data b0 b1 b2 b3)
        by (try assumption; rewrite le32_sum; lia).
      split; [reflexivity|]. split; [apply index_0|].
      assert (Hlen : len ([value op; b0; b1; b2; b3] ++ data) = 5 + len data)
        by (rewrite len_app, !len_cons, len_nil; lia).
      apply (advance_prefix_intro _ _ _ _ (len data)); rewrite ?Hn, ?Hlen;
        try lia.
      * change (0 + 1 - -4) with 5.
        rewrite segment_app_l by (rewrite ?len_cons, ?len_nil; lia).
        change (segment [value op; b0; b1; b2; b3] (0 + 1) 5)
          with [b0; b1; b2; b3].
        cbn [littleEndian]. lia.
      * change (0 + 1 - -4) with (len [value op; b0; b1; b2; b3] + 0).
        change 5 with (len [value op; b0; b1; b2; b3]).
        rewrite segment_app_r, segment_all by lia. reflexivity.
Qed.

Lemma unparseLoop_acc (pops : list parsedOpcode) (acc : list byte) :
  unparseLoop pops acc
  = match unparseLoop pops [] with
    | (r, None) => (acc ++ r, None)
    | (_, Some e) => ([], Some e)
    end.
Proof.
  revert acc. induction pops as [|pop pops IH]; intros acc; cbn [unparseLoop].
  - rewrite app_nil_r. reflexivity.
  - destruct (parsedOpcode_bytes pop) as [b [e|]]; [reflexivity|].
    rewrite (IH (acc ++ b)), (IH ([] ++ b)).
    destruct (unparseLoop pops []) as [r [e|]]; [reflexivity|].
    cbn [app]. rewrite app_assoc. reflexivity.
Qed.

Lemma parseLoop_at_end (fuel : nat) (script : list byte)
  (opcodes : byte -> opcode) (ret : list parsedOpcode) :
  parseLoop fuel script opcodes (len script) ret = Some (ret, None).
Proof. destruct fuel; cbn [parseLoop]; rewrite Z.ltb_irrefl; reflexivity. Qed.

Lemma parseScriptTemplate_single (opcodes : byte -> opcode)
  (pop : parsedOpcode) :
  wellFormed pop -> fromTable opcodes pop ->
  exists bs,
    parsedOpcode_bytes pop = (bs, None) /\
    parseScriptTemplate bs opcodes = Some ([pop], None).
Proof.
  destruct pop as [op data]. unfold fromTable. cbn [pop_opcode].
  intros Hwf Htab.
  destruct (wellFormed_bytes op data Hwf) as (bs & Hbytes & Hidx & Hadv).
  exists bs. split; [exact Hbytes|].
  destruct (parseInstr_advance bs opcodes 0 (value op) Hidx)
    as (t & Ht & Hadv').
  rewrite <- Htab in Hadv'.
  pose proof (advance_functional _ _ _ _ _ Hadv' Hadv) as ->.
  apply index_Some in Hidx. destruct Hidx as [Hlen _].
  unfold parseScriptTemplate.
  destruct bs as [|b bs]; [cbn in Hlen; lia|].
  cbn [List.length parseLoop].
  destruct (Z.ltb_spec 0 (len (b :: bs))); [|lia].
  rewrite Ht. apply parseLoop_at_end.
Qed.

(** X1.  Whatever the buffer, every instruction that [parseScript] returns,
    on success and on failure alike, has its opcode taken from the table and
    carries data of the size its opcode calls for (none without operand,
    [length - 1] bytes for a fixed push, fewer than [256 ^ w] bytes behind a
    prefix of [w] bytes); there are at most as many instructions as the
    buffer has bytes. *)
Theorem parseScript_wellFormed (b : list byte) :
  exists pops err,
    parseScript b = Some (pops, err) /\
    Forall (fun pop => wellFormed pop /\ fromTable opcodeArray pop) pops /\
    len pops <= len b.
Proof.
  destruct (parseScriptTemplate_run opcodeArray opcodeArray_value
              opcodeArray_length_nonzero b) as (pops & err & j & Hrun & Hd & _).
  exists pops, err. split; [exact Hrun|].
  destruct (decodes_wellFormed b opcodeArray j pops opcodeArray_value
              opcodeArray_length_nonzero Hd) as [Hwf Hlen].
  pose proof (decodes_bounds opcodeArray opcodeArray_value
                opcodeArray_length_nonzero b j pops Hd).
  split; [exact Hwf | lia].
Qed.

(** X2.  Parsing composes: when [a] parses in full, parsing [a ++ b] gives
    the instructions of [a] followed by what parsing [b] gives, with the
    error of [b] if there is one. *)
Theorem parseScript_app (a b : list byte) (popsA popsB : list parsedOpcode)
  (err : option Error) :
  parseScript a = Some (popsA, None) ->
  parseScript b = Some (popsB, err) ->
  parseScript (a ++ b) = Some (popsA ++ popsB, err).
Proof.
  apply (parseScriptTemplate_app opcodeArray opcodeArray_value
           opcodeArray_length_nonzero).
Qed.

Lemma parseScript_app_witness :
  parseScript (sampleP2SH ++ [OP_DUP; OP_DATA_1])
  = Some ([plainOp OP_HASH160;
           mkParsedOpcode (opcodeArray OP_DATA_20) (segment sampleP2SH 2 22);
           plainOp OP_EQUAL] ++ [plainOp OP_DUP],
          Some (scriptError ErrMalformedPush)).
Proof.
  apply (parseScript_app sampleP2SH [OP_DUP; OP_DATA_1]);
    vm_compute; reflexivity.
Defined.

Lemma wellFormed_unparse_parse (pops : list parsedOpcode) :
  Forall (fun pop => wellFormed pop /\ fromTable opcodeArray pop) pops ->
  exists bs,
    unparseScript pops = (bs, None) /\
    parseScript bs = Some (pops, None).
Proof.
  unfold unparseScript.
  induction 1 as [|pop pops [Hwf Htab] _ (bs & Hu & Hp)].
  - exists []. split; reflexivity.
  - destruct (parseScriptTemplate_single opcodeArray pop Hwf Htab)
      as (b & Hb & Hpb).
    exists (b ++ bs). split.
    + cbn [unparseLoop]. rewrite Hb, unparseLoop_acc, Hu. reflexivity.
    + apply (parseScriptTemplate_app opcodeArray opcodeArray_value
               opcodeArray_length_nonzero b bs [pop] pops None Hpb Hp).
Qed.

(** X3.  Decoding undoes encoding: a sequence of well-formed instructions
    with opcodes from the table re-encodes without error, and the bytes
    obtained parse in full to the very same sequence. *)
Theorem unparseScript_parseScript (pops : list parsedOpcode) :
  Forall (fun pop => wellFormed pop /\ fromTable opcodeArray pop) pops ->
  exists bs,
    unparseScript pops = (bs, None) /\
    parseScript bs = Some (pops, None).
Proof. exact (wellFormed_unparse_parse pops). Qed.

Lemma unparseScript_parseScript_witness :
  exists bs,
    unparseScript [plainOp OP_DUP;
                   mkParsedOpcode (opcodeArray OP_PUSHDATA2) [x2a; x2b]]
    = (bs, None) /\
    parseScript bs
    = Some ([plainOp OP_DUP;
             mkParsedOpcode (opcodeArray OP_PUSHDATA2) [x2a; x2b]], None).
Proof.
  apply unparseScript_parseScript.
  repeat constructor; unfold wellFormed; cbn; lia.
Defined.

(** X4.  What [parseScript] returns, in full or up to a failure, is the full
    parse of the bytes it covers: the sequence re-encodes without error to a
    prefix of the buffer, and that prefix parses, without error, to the same
    sequence. *)
Theorem parseScript_prefix_reparse (b : list byte) :
  exists pops err bs rest,
    parseScript b = Some (pops, err) /\
    unparseScript pops = (bs, None) /\
    b = bs ++ rest /\
    parseScript bs = Some (pops, None) /\
    (err = None <-> rest = []).
Proof.
  destruct (parseScriptTemplate_run opcodeArray opcodeArray_value
              opcodeArray_length_nonzero b) as (pops & err & j & Hrun & Hd & Hj).
  pose proof (decodes_unparse opcodeArray opcodeArray_value
                opcodeArray_length_nonzero b j pops Hd) as Hu.
  pose proof (decodes_bounds opcodeArray opcodeArray_value
                opcodeArray_length_nonzero b j pops Hd) as Hb.
  destruct (decodes_wellFormed b opcodeArray j pops opcodeArray_value
              opcodeArray_length_nonzero Hd) as [Hwf _].
  destruct (wellFormed_unparse_parse pops Hwf) as (bs & Hu' & Hp).
  rewrite Hu in Hu'. inversion Hu'; subst bs.
  exists pops, err, (firstn (Z.to_nat j) b), (skipn (Z.to_nat j) b).
  split; [exact Hrun|]. split; [exact Hu|].
  split; [symmetry; apply firstn_skipn|]. split; [exact Hp|].
  destruct err as [e|].
  - split; [discriminate|]. intros Hnil. exfalso.
    apply (f_equal (@List.length byte)) in Hnil.
    rewrite length_skipn in Hnil. cbn in Hnil. unfold len in *. lia.
  - split; [|reflexivity]. intros _. apply skipn_all2. unfold len in *. lia.
Qed.

(** ** The bytes of a pay-to-script-hash script *)

Lemma unparseScript_p2sh (h : list byte) :
  len h = 20 ->
  unparseScript [plainOp OP_HASH160; mkParsedOpcode (opcodeArray OP_DATA_20) h;
                 plainOp OP_EQUAL]
  = ([OP_HASH160; OP_DATA_20] ++ h ++ [OP_EQUAL], None).
Proof.
  intros Hh. unfold unparseScript, plainOp. cbn [unparseLoop].
  rewrite (bytes_nodata (opcodeArray OP_HASH160)) by reflexivity.
  rewrite (bytes_fixed (opcodeArray OP_DATA_20) h)
    by (rewrite ?Hh; vm_compute; intuition congruence).
  rewrite (bytes_nodata (opcodeArray OP_EQUAL)) by reflexivity.
  reflexivity.
Qed.

Lemma fromTable_value (pop : parsedOpcode) (v : byte) :
  fromTable opcodeArray pop -> value (pop_opcode pop) = v ->
  pop_opcode pop = opcodeArray v.
Proof. unfold fromTable. intros H <-. exact H. Qed.

(** X5.  [IsPayToScriptHash] holds of exactly the scripts of 23 bytes made of
    [OP_HASH160], [OP_DATA_20], twenty bytes of any value, and [OP_EQUAL]. *)
Theorem IsPayToScriptHash_bytes (script : list byte) :
  IsPayToScriptHash script = Some true <->
  exists h, len h = 20 /\ script = [OP_HASH160; OP_DATA_20] ++ h ++ [OP_EQUAL].
Proof.
  split.
  - unfold IsPayToScriptHash. intros H.
    destruct (parseScriptTemplate_run opcodeArray opcodeArray_value
                opcodeArray_length_nonzero script)
      as (pops & err & j & Hrun & Hd & Hj).
    fold (parseScript script) in Hrun. rewrite Hrun in H.
    destruct err as [e|]; [discriminate|]. subst j.
    rewrite isScriptHash_pattern in H.
    destruct pops as [|p0 [|p1 [|p2 [|p3 rest]]]]; try discriminate.
    inversion H as [Hv]. apply andb_true_iff in Hv. destruct Hv as [Hv H2].
    apply andb_true_iff in Hv. destruct Hv as [H0 H1].
    apply byte_eqb_eq in H0, H1, H2.
    pose proof (decodes_unparse opcodeArray opcodeArray_value
                  opcodeArray_length_nonzero script _ _ Hd) as Hu.
    rewrite firstn_len in Hu by lia.
    destruct (decodes_wellFormed script opcodeArray _ _ opcodeArray_value
                opcodeArray_length_nonzero Hd) as [Hwf _].
    inversion Hwf as [|? ? [W0 T0] Hwf1]; subst.
    inversion Hwf1 as [|? ? [W1 T1] Hwf2]; subst.
    inversion Hwf2 as [|? ? [W2 T2] _]; subst.
    apply fromTable_value with (v := OP_HASH160) in T0; [|assumption].
    apply fromTable_value with (v := OP_DATA_20) in T1; [|assumption].
    apply fromTable_value with (v := OP_EQUAL) in T2; [|assumption].
    destruct p0 as [op0 d0], p1 as [op1 d1], p2 as [op2 d2].
    unfold wellFormed in W0, W1, W2. cbn [pop_opcode pop_data] in *.
    subst op0 op1 op2.
    change (length (opcodeArray OP_HASH160)) with 1 in W0.
    change (length (opcodeArray OP_DATA_20)) with 21 in W1.
    change (length (opcodeArray OP_EQUAL)) with 1 in W2.
    destruct W0 as [[_ ->] | [[W0 _] | [W0 _]]]; [| lia | lia].
    destruct W2 as [[_ ->] | [[W2 _] | [W2 _]]]; [| lia | lia].
    destruct W1 as [[W1 _] | [[_ W1] | [W1 _]]]; [lia | | lia].
    exists d1. split; [lia|].
    fold (plainOp OP_HASH160) in Hu. fold (plainOp OP_EQUAL) in Hu.
    rewrite unparseScript_p2sh in Hu by lia.
    inversion Hu. reflexivity.
  - intros (h & Hh & ->).
    destruct (wellFormed_unparse_parse
                [plainOp OP_HASH160; mkParsedOpcode (opcodeArray OP_DATA_20) h;
                 plainOp OP_EQUAL]) as (bs & Hu & Hp).
    { repeat (apply Forall_cons || apply Forall_nil);
        (split; [| reflexivity]); unfold wellFormed;
        cbn [pop_opcode pop_data plainOp].
      - left. split; reflexivity.
      - right. left. rewrite Hh. split; reflexivity.
      - left. split; reflexivity. }
    rewrite unparseScript_p2sh in Hu by assumption.
    inversion Hu; subst bs.
    unfold IsPayToScriptHash. cbn [app]. rewrite Hp. reflexivity.
Qed.

(** ** More on signature operations *)

Lemma getSigOpCount_as_sum (pops : list parsedOpcode) (precise : bool) :
  MaxPubKeysPerMultiSig * len pops < 2 ^ 63 ->
  getSigOpCount pops precise = Some (sigOpSum precise None pops).
Proof.
  intros Hlen. unfold getSigOpCount.
  change 0 with (len (@nil parsedOpcode)) at 1.
  rewrite (sigOpLoop_sum precise pops pops [] None 0); auto; lia.
Qed.

Lemma sigOpSum_range (precise : bool) (prev : option parsedOpcode)
  (pops : list parsedOpcode) :
  0 <= sigOpSum precise prev pops <= MaxPubKeysPerMultiSig * len pops.
Proof.
  revert prev. induction pops as [|pop pops IH]; intros prev.
  - cbn. lia.
  - cbn [sigOpSum]. rewrite len_cons.
    pose proof (sigOpContribution_range precise prev pop).
    specialize (IH (Some pop)). unfold MaxPubKeysPerMultiSig in *. lia.
Qed.

Lemma sigOpContribution_false_prev (prev prev' : option parsedOpcode)
  (pop : parsedOpcode) :
  sigOpContribution false prev pop = sigOpContribution false prev' pop.
Proof.
  unfold sigOpContribution.
  destruct (opcodeIn singleKeySigOps pop); [reflexivity|].
  destruct (opcodeIn multiKeySigOps pop); [|reflexivity].
  destruct prev, prev'; reflexivity.
Qed.

Lemma sigOpSum_false_prev (prev prev' : option parsedOpcode)
  (pops : list parsedOpcode) :
  sigOpSum false prev pops = sigOpSum false prev' pops.
Proof.
  destruct pops as [|pop pops]; [reflexivity|]. cbn [sigOpSum].
  rewrite (sigOpContribution_false_prev prev prev'). reflexivity.
Qed.

Lemma sigOpSum_false_app (prev : option parsedOpcode)
  (a b : list parsedOpcode) :
  sigOpSum false prev (a ++ b) = sigOpSum false prev a + sigOpSum false None b.
Proof.
  revert prev. induction a as [|pop a IH]; intros prev; cbn [app sigOpSum].
  - rewrite (sigOpSum_false_prev prev None). lia.
  - rewrite IH. lia.
Qed.

Lemma noSigOp_contribution (precise : bool) (prev : option parsedOpcode)
  (pop : parsedOpcode) :
  noSigOp pop -> sigOpContribution precise prev pop = 0.
Proof.
  intros [H1 H2]. unfold sigOpContribution. rewrite H1, H2. reflexivity.
Qed.

(** An instruction that is not a signature check leaves the running count
    as it is, whatever the count. *)
Lemma sigOpLoop_noSigOp (pops rest : list parsedOpcode) (precise : bool) :
  Forall noSigOp rest ->
  forall i nSigs, sigOpLoop rest pops i precise nSigs = Some nSigs.
Proof.
  induction 1 as [|pop rest [H1 H2] _ IH]; intros i nSigs; [reflexivity|].
  cbn [sigOpLoop].
  unfold opcodeIn, singleKeySigOps, multiKeySigOps in H1, H2.
  cbn [existsb] in H1, H2.
  repeat rewrite byte_eqb_Z in H1. repeat rewrite byte_eqb_Z in H2.
  rewrite orb_false_r in H1, H2. rewrite !orb_assoc in H1.
  rewrite H1, H2. apply IH.
Qed.

Lemma small_opcode_noSigOp (pop : parsedOpcode) :
  value (pop_opcode pop) <= OP_16 -> noSigOp pop.
Proof.
  change (byte_to_Z OP_16) with 96. intros Hle.
  unfold noSigOp, opcodeIn, singleKeySigOps, multiKeySigOps. cbn [existsb].
  rewrite !byte_eqb_Z.
  change (byte_to_Z OP_CHECKSIG) with 172.
  change (byte_to_Z OP_CHECKSIGVERIFY) with 173.
  change (byte_to_Z OP_CHECKSIGALT) with 190.
  change (byte_to_Z OP_CHECKSIGALTVERIFY) with 191.
  change (byte_to_Z OP_CHECKMULTISIG) with 174.
  change (byte_to_Z OP_CHECKMULTISIGVERIFY) with 175.
  split; ztest; reflexivity.
Qed.

(** X6.  A sequence that only pushes data holds no signature operation: its
    count is 0 in both modes, whatever its length. *)
Theorem isPushOnly_getSigOpCount (pops : list parsedOpcode) (precise : bool) :
  isPushOnly pops = true -> getSigOpCount pops precise = Some 0.
Proof.
  intros H. apply isPushOnly_Forall in H.
  apply sigOpLoop_noSigOp.
  apply Forall_impl with (2 := H). apply small_opcode_noSigOp.
Qed.

Lemma isPushOnly_getSigOpCount_witness :
  getSigOpCount [mkParsedOpcode (opcodeArray OP_DATA_1) [OP_CHECKSIG];
                 plainOp OP_RESERVED; plainOp OP_16] true = Some 0.
Proof. apply isPushOnly_getSigOpCount. reflexivity. Defined.

(** X7.  [GetSigOpCount] returns on every script, also one that does not
    parse; the count is never negative and at most [MaxPubKeysPerMultiSig]
    for each byte of the script. *)
Theorem GetSigOpCount_bound (script : list byte) :
  MaxPubKeysPerMultiSig * len script < 2 ^ 63 ->
  exists n, GetSigOpCount script = Some n /\
            0 <= n <= MaxPubKeysPerMultiSig * len script.
Proof.
  intros Hlen.
  destruct (parseScriptTemplate_run opcodeArray opcodeArray_value
              opcodeArray_length_nonzero script)
    as (pops & err & j & Hrun & Hd & _).
  destruct (decodes_wellFormed script opcodeArray j pops opcodeArray_value
              opcodeArray_length_nonzero Hd) as [_ Hj].
  pose proof (decodes_bounds opcodeArray opcodeArray_value
                opcodeArray_length_nonzero script j pops Hd) as Hb.
  unfold GetSigOpCount. fold (parseScript script) in Hrun. rewrite Hrun.
  cbn [fst]. unfold MaxPubKeysPerMultiSig in *.
  rewrite getSigOpCount_as_sum by (unfold MaxPubKeysPerMultiSig; lia).
  eexists. split; [reflexivity|].
  pose proof (sigOpSum_range false None pops).
  unfold MaxPubKeysPerMultiSig in *. lia.
Qed.

Lemma GetSigOpCount_bound_witness :
  exists n, GetSigOpCount [OP_3; OP_CHECKMULTISIG; OP_CHECKSIG; OP_DATA_20] = Some n /\
            0 <= n <= MaxPubKeysPerMultiSig
                      * len [OP_3; OP_CHECKMULTISIG; OP_CHECKSIG; OP_DATA_20].
Proof. apply GetSigOpCount_bound. vm_compute. reflexivity. Defined.

(** X8.  Without the pay-to-script-hash rule the precise count of a script
    does not depend on the signature script and never exceeds the quick
    count of [GetSigOpCount]. *)
Theorem GetPreciseSigOpCount_le_GetSigOpCount (scriptSig scriptPubKey : list byte) :
  MaxPubKeysPerMultiSig * len scriptPubKey < 2 ^ 63 ->
  exists nPrecise nQuick,
    GetPreciseSigOpCount scriptSig scriptPubKey false = Some nPrecise /\
    GetSigOpCount scriptPubKey = Some nQuick /\
    0 <= nPrecise <= nQuick.
Proof.
  intros Hlen.
  destruct (parseScriptTemplate_run opcodeArray opcodeArray_value
              opcodeArray_length_nonzero scriptPubKey)
    as (pops & err & j & Hrun & Hd & _).
  destruct (decodes_wellFormed scriptPubKey opcodeArray j pops
              opcodeArray_value opcodeArray_length_nonzero Hd) as [_ Hj].
  pose proof (decodes_bounds opcodeArray opcodeArray_value
                opcodeArray_length_nonzero scriptPubKey j pops Hd) as Hb.
  unfold GetPreciseSigOpCount, GetSigOpCount.
  fold (parseScript scriptPubKey) in Hrun. rewrite Hrun. cbn [fst andthen negb].
  unfold MaxPubKeysPerMultiSig in *.
  rewrite !getSigOpCount_as_sum by (unfold MaxPubKeysPerMultiSig; lia).
  do 2 eexists. split; [reflexivity|]. split; [reflexivity|].
  pose proof (sigOpSum_range true None pops).
  pose proof (sigOpSum_precise_le None pops). lia.
Qed.

Lemma GetPreciseSigOpCount_le_GetSigOpCount_witness :
  exists nPrecise nQuick,
    GetPreciseSigOpCount [OP_DUP] sampleRedeem false = Some nPrecise /\
    GetSigOpCount sampleRedeem = Some nQuick /\
    0 <= nPrecise <= nQuick.
Proof.
  apply GetPreciseSigOpCount_le_GetSigOpCount. vm_compute. reflexivity.
Defined.

(** X9.  The quick count is additive: when [a] parses in full, the count of
    [a ++ b] is the count of [a] plus the count of [b]. *)
Theorem GetSigOpCount_app (a b : list byte) (popsA : list parsedOpcode) :
  MaxPubKeysPerMultiSig * len (a ++ b) < 2 ^ 63 ->
  parseScript a = Some (popsA, None) ->
  exists nA nB,
    GetSigOpCount a = Some nA /\
    GetSigOpCount b = Some nB /\
    GetSigOpCount (a ++ b) = Some (nA + nB).
Proof.
  intros Hlen Ha. rewrite len_app in Hlen.
  pose proof (len_nonneg a) as Hla. pose proof (len_nonneg b) as Hlb.
  destruct (parseScriptTemplate_run opcodeArray opcodeArray_value
              opcodeArray_length_nonzero b)
    as (popsB & err & j & Hb & Hd & _).
  fold (parseScript b) in Hb.
  pose proof (parseScriptTemplate_app opcodeArray opcodeArray_value
                opcodeArray_length_nonzero a b popsA popsB err Ha Hb) as Hab.
  fold (parseScript (a ++ b)) in Hab.
  assert (HlA : len popsA <= len a).
  { pose proof (parseScriptTemplate_decodes opcodeArray opcodeArray_value
                  opcodeArray_length_nonzero a popsA Ha) as HdA.
    destruct (decodes_wellFormed a opcodeArray _ popsA opcodeArray_value
                opcodeArray_length_nonzero HdA) as [_ H]. exact H. }
  assert (HlB : len popsB <= len b).
  { destruct (decodes_wellFormed b opcodeArray j popsB opcodeArray_value
                opcodeArray_length_nonzero Hd) as [_ H].
    pose proof (decodes_bounds opcodeArray opcodeArray_value
                  opcodeArray_length_nonzero b j popsB Hd). lia. }
  unfold GetSigOpCount. rewrite Ha, Hb, Hab. cbn [fst].
  unfold MaxPubKeysPerMultiSig in *.
  rewrite !getSigOpCount_as_sum
    by (unfold MaxPubKeysPerMultiSig; rewrite ?len_app; lia).
  do 2 eexists. split; [reflexivity|]. split; [reflexivity|].
  rewrite sigOpSum_false_app. reflexivity.
Qed.

Lemma GetSigOpCount_app_witness :
  exists nA nB,
    GetSigOpCount sampleSigScript = Some nA /\
    GetSigOpCount sampleRedeem = Some nB /\
    GetSigOpCount (sampleSigScript ++ sampleRedeem) = Some (nA + nB).
Proof.
  apply (GetSigOpCount_app sampleSigScript sampleRedeem
           [mkParsedOpcode (opcodeArray x02) [OP_3; OP_CHECKMULTISIG]]).
  - vm_compute. reflexivity.
  - vm_compute. reflexivity.
Defined.

Lemma noSigOp_range (pop : parsedOpcode) :
  value (pop_opcode pop) < 172 \/ 175 < value (pop_opcode pop) < 190 ->
  noSigOp pop.
Proof.
  intros Hr.
  unfold noSigOp, opcodeIn, singleKeySigOps, multiKeySigOps. cbn [existsb].
  rewrite !byte_eqb_Z.
  change (byte_to_Z OP_CHECKSIG) with 172.
  change (byte_to_Z OP_CHECKSIGVERIFY) with 173.
  change (byte_to_Z OP_CHECKSIGALT) with 190.
  change (byte_to_Z OP_CHECKSIGALTVERIFY) with 191.
  change (byte_to_Z OP_CHECKMULTISIG) with 174.
  change (byte_to_Z OP_CHECKMULTISIGVERIFY) with 175.
  split; ztest; reflexivity.
Qed.

(** X10.  A sequence that matches a script-hash pattern, plain or
    stake-tagged, is not push-only and holds no signature operation. *)
Theorem scriptHash_not_pushOnly_no_sigops (pops : list parsedOpcode)
  (precise : bool) :
  isAnyKindOfScriptHash pops = Some true ->
  isPushOnly pops = false /\ getSigOpCount pops precise = Some 0.
Proof.
  unfold isAnyKindOfScriptHash, orelse.
  rewrite isScriptHash_pattern, isStakeScriptHash_pattern.
  intros H.
  destruct pops as [|p0 [|p1 [|p2 [|p3 [|p4 rest]]]]]; try discriminate.
  - match type of H with
    | (if ?c then _ else _) = _ => destruct c eqn:Hc; [|discriminate]
    end.
    apply andb_true_iff in Hc. destruct Hc as [Hc H2].
    apply andb_true_iff in Hc. destruct Hc as [H0 H1].
    apply Z.eqb_eq in H0, H1, H2.
    change (byte_to_Z OP_HASH160) with 169 in H0.
    change (byte_to_Z OP_DATA_20) with 20 in H1.
    change (byte_to_Z OP_EQUAL) with 135 in H2.
    split.
    + cbn [isPushOnly]. rewrite H0. reflexivity.
    + apply sigOpLoop_noSigOp.
      repeat (apply Forall_cons || apply Forall_nil); apply noSigOp_range; lia.
  - inversion H as [Hc].
    apply andb_true_iff in Hc. destruct Hc as [Hc H3].
    apply andb_true_iff in Hc. destruct Hc as [Hc H2].
    apply andb_true_iff in Hc. destruct Hc as [H0 H1].
    apply Z.eqb_eq in H1, H2, H3.
    unfold isStakeOpcode in H0. rewrite Z.geb_leb in H0.
    apply andb_true_iff in H0. destruct H0 as [Ha Hb].
    apply Z.leb_le in Ha, Hb.
    change (byte_to_Z OP_SSTX) with 186 in Ha.
    change (byte_to_Z OP_SSTXCHANGE) with 189 in Hb.
    change (byte_to_Z OP_HASH160) with 169 in H1.
    change (byte_to_Z OP_DATA_20) with 20 in H2.
    change (byte_to_Z OP_EQUAL) with 135 in H3.
    split.
    + cbn [isPushOnly]. rewrite Z.gtb_ltb.
      change (byte_to_Z OP_16) with 96.
      destruct (Z.ltb_spec 96 (value (pop_opcode p0))); [reflexivity | lia].
    + apply sigOpLoop_noSigOp.
      repeat (apply Forall_cons || apply Forall_nil); apply noSigOp_range; lia.
Qed.

Lemma scriptHash_not_pushOnly_no_sigops_witness :
  isPushOnly [plainOp OP_SSGEN; plainOp OP_HASH160;
              mkParsedOpcode (opcodeArray OP_DATA_20) (segment sampleP2SH 2 22);
              plainOp OP_EQUAL] = false /\
  getSigOpCount [plainOp OP_SSGEN; plainOp OP_HASH160;
                 mkParsedOpcode (opcodeArray OP_DATA_20) (segment sampleP2SH 2 22);
                 plainOp OP_EQUAL] true = Some 0.
Proof. apply scriptHash_not_pushOnly_no_sigops. reflexivity. Defined.

(** ** More on the removal of pushes *)

Lemma filter_idempotent {A : Type} (f : A -> bool) (l : list A) :
  filter f (filter f l) = filter f l.
Proof. apply forallb_filter_id, forallb_filter. Qed.

(** X11.  [removeOpcodeByData] returns on every sequence; what it returns is
    no longer than its input, holds only instructions of the input, and is
    left as it is by a second removal of the same data. *)
Theorem removeOpcodeByData_idempotent (pkscript : list parsedOpcode)
  (data : list byte) :
  exists r,
    removeOpcodeByData pkscript data = Some r /\
    removeOpcodeByData r data = Some r /\
    len r <= len pkscript /\
    incl r pkscript.
Proof.
  unfold removeOpcodeByData. rewrite removeLoop_filter. cbn [app].
  eexists. split; [reflexivity|].
  rewrite removeLoop_filter. cbn [app]. rewrite filter_idempotent.
  split; [reflexivity|]. split.
  - unfold len. apply inj_le. apply filter_length_le.
  - apply incl_filter.
Qed.

Lemma opcodeArray_length_push (v : byte) :
  length (opcodeArray v) <> 1 -> v <= 78.
Proof.
  unfold opcodeArray. cbn [length].
  change (byte_to_Z OP_DATA_1) with 1. change (byte_to_Z OP_DATA_75) with 75.
  change (byte_to_Z OP_PUSHDATA1) with 76.
  change (byte_to_Z OP_PUSHDATA2) with 77.
  change (byte_to_Z OP_PUSHDATA4) with 78.
  destruct (Z.leb_spec 1 v), (Z.leb_spec v 75); cbn [andb]; try lia.
  all: ztest.
Qed.

Lemma pushesData_noSigOp (data : list byte) (pop : parsedOpcode) :
  data <> [] -> wellFormed pop -> fromTable opcodeArray pop ->
  pushesData data pop = true -> noSigOp pop.
Proof.
  intros Hne Hwf Htab Hrm.
  assert (Hdata : pop_data pop <> []).
  { unfold pushesData in Hrm.
    destruct (canonicalPush pop) as [[|]|]; try discriminate.
    intros Hnil. rewrite Hnil in Hrm.
    destruct data; [contradiction | discriminate]. }
  assert (Hlen : length (pop_opcode pop) <> 1).
  { intros H1. unfold wellFormed in Hwf. cbv zeta in Hwf.
    destruct Hwf as [[_ Hd] | [[Hn _] | [Hn _]]]; [contradiction | lia | lia]. }
  unfold fromTable in Htab. rewrite Htab in Hlen.
  apply opcodeArray_length_push in Hlen.
  apply noSigOp_range. lia.
Qed.

Lemma sigOpSum_false_filter (keep : parsedOpcode -> bool)
  (pops : list parsedOpcode) :
  Forall (fun pop => keep pop = false -> noSigOp pop) pops ->
  forall prev,
    sigOpSum false prev (filter keep pops) = sigOpSum false prev pops.
Proof.
  induction 1 as [|pop pops Hpop _ IH]; intros prev; [reflexivity|].
  cbn [filter sigOpSum]. destruct (keep pop) eqn:Hk.
  - cbn [sigOpSum]. rewrite IH. reflexivity.
  - rewrite (noSigOp_contribution false prev pop (Hpop eq_refl)).
    rewrite (IH prev), (sigOpSum_false_prev prev (Some pop)). lia.
Qed.

(** X12.  On a sequence of instructions as the parser produces them, the
    removal of the pushes of some data that is not empty takes no signature
    check away: the count that is not precise is the same after as
    before. *)
Theorem removeOpcodeByData_keeps_sigops (pops : list parsedOpcode)
  (data : list byte) :
  Forall (fun pop => wellFormed pop /\ fromTable opcodeArray pop) pops ->
  data <> [] ->
  MaxPubKeysPerMultiSig * len pops < 2 ^ 63 ->
  exists r n,
    removeOpcodeByData pops data = Some r /\
    getSigOpCount pops false = Some n /\
    getSigOpCount r false = Some n.
Proof.
  intros Hwf Hne Hlen.
  unfold removeOpcodeByData. rewrite removeLoop_filter. cbn [app].
  do 2 eexists. split; [reflexivity|].
  rewrite getSigOpCount_as_sum by assumption. split; [reflexivity|].
  rewrite getSigOpCount_as_sum.
  - f_equal. apply sigOpSum_false_filter.
    apply Forall_impl with (2 := Hwf). intros pop [W T] Hk.
    apply (pushesData_noSigOp data); try assumption.
    apply negb_false_iff. exact Hk.
  - pose proof (filter_length_le
                  (fun pop => negb (pushesData data pop)) pops) as Hf.
    unfold MaxPubKeysPerMultiSig, len in *. lia.
Qed.

Lemma removeOpcodeByData_keeps_sigops_witness :
  exists r n,
    removeOpcodeByData
      [mkParsedOpcode (opcodeArray x02) [x2a; x2b]; plainOp OP_CHECKSIG]
      [x2b] = Some r /\
    getSigOpCount
      [mkParsedOpcode (opcodeArray x02) [x2a; x2b]; plainOp OP_CHECKSIG]
      false = Some n /\
    getSigOpCount r false = Some n.
Proof.
  apply removeOpcodeByData_keeps_sigops.
  - repeat (apply Forall_cons || apply Forall_nil); (split; [| reflexivity]);
      unfold wellFormed; cbn [pop_opcode pop_data plainOp].
    + right. left. split; reflexivity.
    + left. split; reflexivity.
  - discriminate.
  - vm_compute. reflexivity.
Defined.

(** ** Small integers *)

Lemma asSmallInt_small (op : byte) :
  isSmallInt op = true ->
  (op = OP_0 /\ asSmallInt op = 0) \/
  (81 <= op <= 96 /\ asSmallInt op = op - 80).
Proof.
  unfold isSmallInt, asSmallInt. rewrite Z.geb_leb.
  change (byte_to_Z OP_0) with 0. change (byte_to_Z OP_1) with 81.
  change (byte_to_Z OP_16) with 96.
  destruct (Z.eqb_spec op 0) as [H0 | H0].
  - intros _. left. split; [|reflexivity].
    apply byte_to_Z_inj. exact H0.
  - cbn [orb]. intros H. apply andb_true_iff in H. destruct H as [H1 H2].
    apply Z.leb_le in H1, H2. right. split; [lia|].
    rewrite byte_to_of_Z. rewrite Z.mod_small by lia. lia.
Qed.

(** X13.  On the opcodes that [isSmallInt] accepts, [asSmallInt] gives an
    integer from 0 to 16, and gives different integers for different
    opcodes. *)
Theorem asSmallInt_isSmallInt (a b : byte) :
  isSmallInt a = true -> isSmallInt b = true ->
  0 <= asSmallInt a <= 16 /\ (asSmallInt a = asSmallInt b -> a = b).
Proof.
  intros Ha Hb. apply asSmallInt_small in Ha, Hb.
  split; [lia|]. intros Heq. apply byte_to_Z_inj.
  destruct Ha as [[-> Ha] | [Hra Ha]], Hb as [[-> Hb] | [Hrb Hb]];
    try reflexivity; change (byte_to_Z OP_0) with 0; lia.
Qed.

Lemma asSmallInt_isSmallInt_witness :
  0 <= asSmallInt OP_3 <= 16 /\ (asSmallInt OP_3 = asSmallInt OP_0 -> OP_3 = OP_0).
Proof. apply asSmallInt_isSmallInt; reflexivity. Defined.

(** ** The parser on a table of any kind *)

Lemma advance_Next_bound (script : list byte) (op : opcode) (i i' : Z)
  (pop : parsedOpcode) :
  i < len script -> advance script op i (Next pop i') -> i' <= len script.
Proof. intros Hi H. inversion H; subst; lia. Qed.

Lemma advance_Fail_code (script : list byte) (op : opcode) (i : Z) (e : Error) :
  advance script op i (Fail e) -> errorCode e = ErrMalformedPush.
Proof. intros H. inversion H; reflexivity. Qed.

Lemma parseLoop_returns (script : list byte) (opcodes : byte -> opcode) :
  (forall b, length (opcodes b) <> 0) ->
  forall fuel i ret,
    0 <= i <= len script -> len script - i <= Z.of_nat fuel ->
    exists pops err,
      parseLoop fuel script opcodes i ret = Some (pops, err) /\
      len pops <= len ret + (len script - i) /\
      (forall e, err = Some e -> errorCode e = ErrMalformedPush).
Proof.
  intros Hnz. induction fuel as [|fuel IH]; intros i ret Hi Hfuel;
    cbn [parseLoop].
  - destruct (Z.ltb_spec i (len script)); [lia|].
    exists ret, None. repeat split; [lia | discriminate].
  - destruct (Z.ltb_spec i (len script)) as [Hlt | Hge].
    2: { exists ret, None. repeat split; [lia | discriminate]. }
    destruct (index_in_range script i) as [instr Hinstr]; [lia|].
    destruct (parseInstr_advance script opcodes i instr Hinstr)
      as ([pop i' | e] & Ht & Hadv); rewrite Ht.
    + destruct (advance_Next_wellFormed _ _ _ _ _ (proj1 Hi) (Hnz instr) Hadv)
        as (_ & _ & Hlt').
      pose proof (advance_Next_bound _ _ _ _ _ Hlt Hadv) as Hle.
      destruct (IH i' (ret ++ [pop])) as (pops & err & Hr & Hlen & Herr);
        [lia | lia |].
      exists pops, err. split; [exact Hr|]. split; [|exact Herr].
      rewrite len_snoc in Hlen. lia.
    + exists ret, (Some e). split; [reflexivity|]. split; [lia|].
      intros e' He'. inversion He'; subst e'.
      apply (advance_Fail_code _ _ _ _ Hadv).
Qed.

(** X14.  With any table that has no entry of length 0, also one whose values
    are not the indices or whose prefix widths are not 1, 2 or 4,
    [parseScriptTemplate] returns; it returns at most one instruction for
    each byte of the script, and an error it returns is a malformed-push
    error. *)
Theorem parseScriptTemplate_returns (script : list byte)
  (opcodes : byte -> opcode) :
  (forall b, length (opcodes b) <> 0) ->
  exists pops err,
    parseScriptTemplate script opcodes = Some (pops, err) /\
    len pops <= len script /\
    (forall e, err = Some e -> errorCode e = ErrMalformedPush).
Proof.
  intros Hnz. pose proof (len_nonneg script) as Hl.
  destruct (parseLoop_returns script opcodes Hnz (List.length script) 0 [])
    as (pops & err & Hr & Hlen & Herr); [lia | unfold len; lia |].
  exists pops, err. split; [exact Hr|]. split; [|exact Herr].
  change (len (@nil parsedOpcode)) with 0 in Hlen. lia.
Qed.

Lemma parseScriptTemplate_returns_witness :
  exists pops err,
    parseScriptTemplate [OP_DUP; x01; x02; x03; x04] oddTable
    = Some (pops, err) /\
    len pops <= len [OP_DUP; x01; x02; x03; x04] /\
    (forall e, err = Some e -> errorCode e = ErrMalformedPush).
Proof. apply parseScriptTemplate_returns. intros b. discriminate. Defined.

Lemma parseLoop_stalls (script : list byte) (opcodes : byte -> opcode)
  (i : Z) (instr : byte) :
  index script i = Some instr -> length (opcodes instr) = 0 ->
  forall fuel ret, parseLoop fuel script opcodes i ret = None.
Proof.
  intros Hinstr Hz. pose proof (index_Some _ _ _ Hinstr) as [Hi _].
  assert (Hp : parseInstr script opcodes i
               = Some (Next (mkParsedOpcode (opcodes instr) []) i)).
  { destruct (parseInstr_advance script opcodes i instr Hinstr)
      as (t & Ht & Hadv).
    rewrite Ht. f_equal.
    apply (advance_functional _ _ _ _ _ Hadv). now apply advance_stall. }
  induction fuel as [|fuel IH]; intros ret; cbn [parseLoop];
    destruct (Z.ltb_spec i (len script)); try lia; [reflexivity|].
  rewrite Hp. apply IH.
Qed.

Lemma decodes_parseLoop_None (script : list byte) (opcodes : byte -> opcode)
  (i : Z) (pops : list parsedOpcode) :
  decodes script opcodes i pops ->
  (forall fuel, parseLoop fuel script opcodes i pops = None) ->
  forall fuel, parseLoop fuel script opcodes 0 [] = None.
Proof.
  induction 1 as [|i pops pop i' Hd IH Hi Hp]; intros Hnone; [exact Hnone|].
  apply IH. intros [|fuel]; cbn [parseLoop];
    destruct (Z.ltb_spec i (len script)); try lia; [reflexivity|].
  rewrite Hp. apply Hnone.
Qed.

(** X15.  When the decoder reaches an opcode whose entry in the table has
    length 0, the loop of [parseScriptTemplate] never ends: the cursor stays
    where it is, and no number of turns gives a result. *)
Theorem parseScriptTemplate_never_returns (script : list byte)
  (opcodes : byte -> opcode) (i : Z) (pops : list parsedOpcode)
  (instr : byte) :
  decodes script opcodes i pops ->
  index script i = Some instr ->
  length (opcodes instr) = 0 ->
  (forall fuel, parseLoop fuel script opcodes 0 [] = None) /\
  parseScriptTemplate script opcodes = None.
Proof.
  intros Hd Hinstr Hz.
  assert (H : forall fuel, parseLoop fuel script opcodes 0 [] = None).
  { apply (decodes_parseLoop_None script opcodes i pops Hd).
    intros fuel. now apply (parseLoop_stalls script opcodes i instr). }
  split; [exact H | apply H].
Qed.

Lemma parseScriptTemplate_never_returns_witness :
  (forall fuel, parseLoop fuel [OP_DUP] stallTable 0 [] = None) /\
  parseScriptTemplate [OP_DUP] stallTable = None.
Proof.
  apply (parseScriptTemplate_never_returns [OP_DUP] stallTable 0 [] OP_DUP).
  - constructor.
  - reflexivity.
  - reflexivity.
Defined.

(** ** Re-encoding end to end *)

Lemma unparseLoop_error_nil (pops : list parsedOpcode) (acc r : list byte)
  (e : Error) :
  unparseLoop pops acc = (r, Some e) -> r = [].
Proof.
  revert acc. induction pops as [|pop pops IH]; intros acc; cbn [unparseLoop].
  - discriminate.
  - destruct (parsedOpcode_bytes pop) as [bs [e'|]].
    + intros H. inversion H. reflexivity.
    + apply IH.
Qed.

(** X16.  [unparseScript] of two sequences put end to end gives the bytes of
    the first followed by the bytes of the second; when an instruction does
    not re-encode, the result is the error of the first such instruction and
    no bytes. *)
Theorem unparseScript_app (a b : list parsedOpcode) :
  unparseScript (a ++ b)
  = match unparseScript a with
    | (ra, None) =>
        match unparseScript b with
        | (rb, None) => (ra ++ rb, None)
        | (_, Some e) => ([], Some e)
        end
    | (_, Some e) => ([], Some e)
    end.
Proof.
  unfold unparseScript. induction a as [|pop a IH]; cbn [app unparseLoop].
  - destruct (unparseLoop b []) as [rb [e|]] eqn:Hb; [|reflexivity].
    apply unparseLoop_error_nil in Hb. subst rb. reflexivity.
  - destruct (parsedOpcode_bytes pop) as [bs [e|]]; [reflexivity|].
    rewrite (unparseLoop_acc (a ++ b)), (unparseLoop_acc a), IH.
    destruct (unparseLoop a []) as [ra [e|]]; [reflexivity|].
    destruct (unparseLoop b []) as [rb [e|]]; [reflexivity|].
    rewrite app_assoc. reflexivity.
Qed.

(** ** Canonical pushes among decoded instructions *)

Lemma opcodeArray_length_cases (v : byte) :
  (length (opcodeArray v) = 1 /\ (v = 0 :> Z \/ 79 <= v)) \/
  (length (opcodeArray v) = v + 1 /\ 1 <= v <= 75) \/
  (length (opcodeArray v) = -1 /\ v = 76 :> Z) \/
  (length (opcodeArray v) = -2 /\ v = 77 :> Z) \/
  (length (opcodeArray v) = -4 /\ v = 78 :> Z).
Proof.
  pose proof (byte_to_Z_range v) as Hv.
  unfold opcodeArray. cbn [length].
  change (byte_to_Z OP_DATA_1) with 1. change (byte_to_Z OP_DATA_75) with 75.
  change (byte_to_Z OP_PUSHDATA1) with 76.
  change (byte_to_Z OP_PUSHDATA2) with 77.
  change (byte_to_Z OP_PUSHDATA4) with 78.
  destruct (Z.leb_spec 1 v), (Z.leb_spec v 75); cbn [andb]; try lia.
  all: ztest; lia.
Qed.

Lemma canonicalPush_eval (op : opcode) (data : list byte) :
  canonicalPush (mkParsedOpcode op data)
  = Some (if value op >? 96 then true
          else if (value op <? 76) && (value op >? 0) && (len data =? 1)
                  && match data with
                     | d0 :: _ => d0 <=? 16
                     | [] => false
                     end
          then false
          else if (value op =? 76) && (len data <? 76) then false
          else if (value op =? 77) && (len data <=? 255) then false
          else if (value op =? 78) && (len data <=? 65535) then false
          else true).
Proof.
  unfold canonicalPush. cbn [pop_opcode pop_data].
  change (byte_to_Z OP_16) with 96. change (byte_to_Z OP_0) with 0.
  change (byte_to_Z OP_PUSHDATA1) with 76.
  change (byte_to_Z OP_PUSHDATA2) with 77.
  change (byte_to_Z OP_PUSHDATA4) with 78.
  destruct (value op >? 96); [reflexivity|].
  destruct data as [|d0 data].
  - destruct (value op <? 76), (value op >? 0); cbn;
      repeat match goal with
             | |- context [if ?t then _ else _] => destruct t
             end; reflexivity.
  - rewrite index_0.
    destruct (value op <? 76), (value op >? 0), (len (d0 :: data) =? 1),
      (d0 <=? 16); cbn [andthen andb];
      repeat match goal with
             | |- context [if ?t then _ else _] => destruct t
             end; reflexivity.
Qed.

(** X17.  Among the instructions that the parser produces, the ones that
    [canonicalPush] rejects are exactly: [OP_DATA_1] pushing one byte of
    value at most 16, [OP_PUSHDATA1] with fewer than 76 bytes,
    [OP_PUSHDATA2] with at most 255 bytes and [OP_PUSHDATA4] with at most
    65535 bytes.  Every other instruction is accepted. *)
Theorem canonicalPush_parsed (pop : parsedOpcode) :
  wellFormed pop -> fromTable opcodeArray pop ->
  exists c,
    canonicalPush pop = Some c /\
    (c = false <->
     (value (pop_opcode pop) = OP_DATA_1 /\
      exists d : byte, pop_data pop = [d] /\ d <= 16) \/
     (value (pop_opcode pop) = OP_PUSHDATA1 /\ len (pop_data pop) < 76) \/
     (value (pop_opcode pop) = OP_PUSHDATA2 /\ len (pop_data pop) <= 255) \/
     (value (pop_opcode pop) = OP_PUSHDATA4 /\ len (pop_data pop) <= 65535)).
Proof.
  destruct pop as [op data]. unfold wellFormed, fromTable.
  cbn [pop_opcode pop_data]. intros Hwf Htab.
  eexists. split; [apply canonicalPush_eval|].
  assert (Hv : forall w : byte, value op = w <-> byte_to_Z (value op) = w).
  { intros w. split; [now intros -> | apply byte_to_Z_inj]. }
  rewrite !Hv.
  change (byte_to_Z OP_DATA_1) with 1. change (byte_to_Z OP_PUSHDATA1) with 76.
  change (byte_to_Z OP_PUSHDATA2) with 77.
  change (byte_to_Z OP_PUSHDATA4) with 78.
  pose proof (opcodeArray_length_cases (value op)) as Hcases.
  rewrite <- Htab in Hcases.
  pose proof (len_nonneg data) as Hd.
  assert (Hone : len data = 1 -> exists d0, data = [d0]).
  { destruct data as [|d0 [|d1 dr]]; rewrite ?len_cons, ?len_nil.
    - lia.
    - eauto.
    - pose proof (len_nonneg dr). lia. }
  assert (Hex : (exists d : byte, data = [d] /\ d <= 16) <->
                len data = 1 /\
                match data with d0 :: _ => d0 <= 16 | [] => False end).
  { split.
    - intros (d & -> & Hle). split; [reflexivity | exact Hle].
    - intros [H1 Hm]. destruct (Hone H1) as [d0 ->]. eauto. }
  rewrite Hex. clear Hex Hone Hv Htab.
  destruct data as [|d0 dr].
  - rewrite len_nil in *. ztest; cbn [andb];
      split; try discriminate; try tauto; try lia.
  - remember (len (d0 :: dr)) as n.
    pose proof (byte_to_Z_range d0).
    ztest; cbn [andb]; split; try discriminate; try reflexivity;
      (intros; lia).
Qed.

Lemma canonicalPush_parsed_witness :
  exists c,
    canonicalPush (mkParsedOpcode (opcodeArray OP_DATA_1) [x07]) = Some c /\
    (c = false <->
     (OP_DATA_1 = OP_DATA_1 /\ exists d : byte, [x07] = [d] /\ d <= 16) \/
     (OP_DATA_1 = OP_PUSHDATA1 /\ len [x07] < 76) \/
     (OP_DATA_1 = OP_PUSHDATA2 /\ len [x07] <= 255) \/
     (OP_DATA_1 = OP_PUSHDATA4 /\ len [x07] <= 65535)).
Proof.
  apply (canonicalPush_parsed (mkParsedOpcode (opcodeArray OP_DATA_1) [x07])).
  - right. left. split; reflexivity.
  - reflexivity.
Defined.

(** ** Scripts seen as bytes *)

Lemma parseScript_ok_decodes (script : list byte) (pops : list parsedOpcode) :
  parseScript script = Some (pops, None) ->
  unparseScript pops = (script, None) /\
  Forall (fun pop => wellFormed pop /\ fromTable opcodeArray pop) pops.
Proof.
  intros Hp.
  pose proof (parseScriptTemplate_decodes opcodeArray opcodeArray_value
                opcodeArray_length_nonzero script pops Hp) as Hd.
  split.
  - rewrite (decodes_unparse opcodeArray opcodeArray_value
               opcodeArray_length_nonzero script _ _ Hd).
    rewrite firstn_len by lia. reflexivity.
  - apply (decodes_wellFormed script opcodeArray _ pops opcodeArray_value
             opcodeArray_length_nonzero Hd).
Qed.

(** X18.  For an amount that is not zero, [IsUnspendable] holds of exactly
    the scripts that do not parse and the scripts whose first byte is
    [OP_RETURN], whatever follows that byte. *)
Theorem IsUnspendable_bytes (amount : Z) (script : list byte) :
  amount <> 0 ->
  (IsUnspendable amount script = Some true <->
   (exists pops e, parseScript script = Some (pops, Some e)) \/
   (exists rest, script = OP_RETURN :: rest)).
Proof.
  intros Ha. unfold IsUnspendable.
  destruct (Z.eqb_spec amount 0) as [|_]; [contradiction|].
  destruct (parseScript_total script) as (pops & err & Hp). rewrite Hp.
  split.
  - destruct err as [e|]; [intros _; left; eauto|].
    destruct (parseScript_ok_decodes script pops Hp) as [Hu Hwf].
    destruct pops as [|[op data] pops]; [discriminate|].
    unfold opcodeAt. rewrite index_0. cbn [pop_opcode].
    destruct (len (mkParsedOpcode op data :: pops) >? 0); [|discriminate].
    cbn [andthen]. intros H. inversion H as [Hv]. apply byte_eqb_eq in Hv.
    right. inversion Hwf as [|? ? [W _] _]; subst.
    destruct (wellFormed_bytes op data W) as (bs & Hb & Hidx & _).
    unfold unparseScript in Hu. cbn [unparseLoop] in Hu. rewrite Hb in Hu.
    rewrite unparseLoop_acc in Hu.
    destruct (unparseLoop pops []) as [r [e|]]; [discriminate|].
    inversion Hu as [Hs]. cbn [app].
    apply index_Some in Hidx. destruct Hidx as [_ Hn].
    destruct bs as [|b0 bs]; [discriminate|].
    cbn in Hn. inversion Hn; subst b0. rewrite Hv. cbn [app]. eauto.
  - intros [(pops' & e & Hp') | (rest & ->)].
    + inversion Hp'; subst. reflexivity.
    + destruct (parseScript_total rest) as (popsR & errR & Hr).
      assert (H1 : parseScript [OP_RETURN] = Some ([plainOp OP_RETURN], None))
        by reflexivity.
      pose proof (parseScriptTemplate_app opcodeArray opcodeArray_value
                    opcodeArray_length_nonzero [OP_RETURN] rest _ _ _ H1 Hr)
        as Happ.
      cbn [app] in Happ. fold (parseScript (OP_RETURN :: rest)) in Happ.
      rewrite Hp in Happ. inversion Happ; subst.
      destruct errR; [reflexivity|].
      unfold opcodeAt. rewrite index_0, len_cons.
      pose proof (len_nonneg popsR). rewrite Z.gtb_ltb.
      destruct (Z.ltb_spec 0 (1 + len popsR)); [reflexivity | lia].
Qed.

Lemma IsUnspendable_bytes_witness :
  IsUnspendable 5 [OP_RETURN; OP_DATA_20] = Some true <->
  (exists pops e, parseScript [OP_RETURN; OP_DATA_20] = Some (pops, Some e)) \/
  (exists rest, [OP_RETURN; OP_DATA_20] = OP_RETURN :: rest).
Proof. apply IsUnspendable_bytes. discriminate. Defined.

Lemma isPushOnly_app (a b : list parsedOpcode) :
  isPushOnly (a ++ b) = isPushOnly a && isPushOnly b.
Proof.
  induction a as [|pop a IH]; cbn [app isPushOnly andb]; [reflexivity|].
  destruct (value (pop_opcode pop) >? OP_16); [reflexivity | exact IH].
Qed.

(** X19.  A push-only script in front changes nothing: when [a] is
    push-only, [a ++ b] is push-only exactly when [b] is. *)
Theorem IsPushOnlyScript_app (a b : list byte) :
  IsPushOnlyScript a = Some true ->
  IsPushOnlyScript (a ++ b) = IsPushOnlyScript b.
Proof.
  unfold IsPushOnlyScript.
  destruct (parseScript_total a) as (popsA & errA & Ha). rewrite Ha.
  destruct errA as [e|]; [discriminate|]. intros H. inversion H as [HpA].
  destruct (parseScript_total b) as (popsB & errB & Hb). rewrite Hb.
  pose proof (parseScriptTemplate_app opcodeArray opcodeArray_value
                opcodeArray_length_nonzero a b _ _ _ Ha Hb) as Hab.
  fold (parseScript (a ++ b)) in Hab. rewrite Hab.
  destruct errB; [reflexivity|].
  rewrite isPushOnly_app, HpA. reflexivity.
Qed.

Lemma IsPushOnlyScript_app_witness :
  IsPushOnlyScript (sampleSigScript ++ sampleRedeem)
  = IsPushOnlyScript sampleRedeem.
Proof. apply IsPushOnlyScript_app. reflexivity. Defined.

(** ** The redeem script of a pay-to-script-hash spend *)

Lemma opcodeArray_data_length (n : Z) :
  1 <= n <= 75 -> length (opcodeArray (byte_of_Z n)) = n + 1.
Proof.
  intros Hn. unfold opcodeArray. cbn [length].
  rewrite byte_to_of_Z, Z.mod_small by lia.
  change (byte_to_Z OP_DATA_1) with 1. change (byte_to_Z OP_DATA_75) with 75.
  destruct (Z.leb_spec 1 n), (Z.leb_spec n 75); cbn [andb]; lia.
Qed.

(** X20.  Under the pay-to-script-hash rule the count is that of the redeem
    script alone: when the public key script is a pay-to-script-hash script
    and the signature script is a push-only script followed by the push, with
    [OP_DATA_n], of a redeem script of 1 to 75 bytes, the result is the
    precise count of the redeem script, parsed as far as it parses. *)
Theorem GetPreciseSigOpCount_redeem (sigPrefix redeem scriptPubKey : list byte) :
  IsPayToScriptHash scriptPubKey = Some true ->
  IsPushOnlyScript sigPrefix = Some true ->
  1 <= len redeem <= 75 ->
  GetPreciseSigOpCount (sigPrefix ++ byte_of_Z (len redeem) :: redeem)
    scriptPubKey true
  = (r <- parseScript redeem ;; getSigOpCount (fst r) true).
Proof.
  unfold IsPayToScriptHash, IsPushOnlyScript. intros Hpk Hsig Hn.
  destruct (parseScript_total scriptPubKey) as (pops & err & Hp).
  rewrite Hp in Hpk. destruct err as [e|]; [discriminate|].
  destruct (parseScript_total sigPrefix) as (popsS & errS & Hs).
  rewrite Hs in Hsig. destruct errS as [e|]; [discriminate|].
  injection Hsig as HpushS.
  set (last := mkParsedOpcode (opcodeArray (byte_of_Z (len redeem))) redeem).
  pose proof (opcodeArray_data_length (len redeem) Hn) as Hlen.
  assert (Hwf : wellFormed last).
  { unfold wellFormed, last. cbn [pop_opcode pop_data]. right. left. lia. }
  destruct (parseScriptTemplate_single opcodeArray last Hwf eq_refl)
    as (bs & Hb & Hpb).
  unfold last in Hb. rewrite bytes_fixed in Hb by lia.
  inversion Hb; subst bs. cbn [value opcodeArray] in Hpb.
  pose proof (parseScriptTemplate_app opcodeArray opcodeArray_value
                opcodeArray_length_nonzero sigPrefix _ _ _ _ Hs Hpb) as Hsg.
  unfold GetPreciseSigOpCount. rewrite Hp. cbn [fst].
  rewrite Hpk. cbn [andthen negb].
  fold (parseScript (sigPrefix ++ byte_of_Z (len redeem) :: redeem)) in Hsg.
  rewrite Hsg.
  assert (Hpush : isPushOnly (popsS ++ [last]) = true).
  { rewrite isPushOnly_app, HpushS. cbn [andb isPushOnly last pop_opcode value].
    rewrite opcodeArray_value, byte_to_of_Z, Z.mod_small by lia.
    change (byte_to_Z OP_16) with 96.
    rewrite Z.gtb_ltb. destruct (Z.ltb_spec 96 (len redeem)); [lia | reflexivity]. }
  rewrite Hpush. cbn [negb orelse].
  assert (Hne : (len (popsS ++ [last]) =? 0) = false).
  { rewrite len_snoc. pose proof (len_nonneg popsS). ztest. }
  rewrite Hne, index_last. cbn [last pop_data].
  destruct (Z.eqb_spec (len redeem) 0); [lia|].
  destruct (parseScript redeem) as [r|]; reflexivity.
Qed.

Lemma GetPreciseSigOpCount_redeem_witness :
  GetPreciseSigOpCount ([OP_0] ++ byte_of_Z (len sampleRedeem) :: sampleRedeem)
    sampleP2SH true
  = (r <- parseScript sampleRedeem ;; getSigOpCount (fst r) true).
Proof.
  apply GetPreciseSigOpCount_redeem.
  - reflexivity.
  - reflexivity.
  - vm_compute. split; discriminate.
Defined.

(** ** What the removal of pushes takes away *)














